(** * cors-fixer.js: image availability probes

    A shallow embedding of [static/js/cors-fixer.js] and of the part of the
    browser host it talks to: [Image] objects, one-shot timers
    ([setTimeout] / [clearTimeout]), promises and the warning console.

    The two functions of the script only register closures; everything
    observable happens later, when the host's event loop dispatches a timer
    task or an image [load] / [error] event.  The model therefore has two
    layers:

    - the synchronous code, written in a small state/exception/output monad
      [JS] that reads like the JavaScript it embeds;
    - the event loop, a labelled transition function [dispatch] on the host
      state [World]; a run of the loop is a list of events.

    Closures are first-order data ([Handler]): one constructor per arrow
    function of the source, carrying the variables it captures. *)

From Stdlib Require Import String ZArith List Lia.
From stdpp Require Import base option list strings.
Import ListNotations.

Local Open Scope string_scope.
Local Open Scope list_scope.
Local Open Scope nat_scope.

(** ** Host objects *)

(** The [callback] argument of [checkImageExists] is caller code; the model
    keeps it opaque and records every invocation together with its argument. *)
Inductive Callback : Type :=
| MkCallback (name : nat).

(** [new Error(message)]. *)
Record JsError : Type := MkError { message : string }.

(** The six arrow functions / function expressions of the source, with their
    captured variables.  [resolve] and [reject] are represented by the
    promise they belong to. *)
Inductive Handler : Type :=
| CheckTimeout (url : string) (callback : Callback)
| CheckOnload (timer : nat) (callback : Callback)
| CheckOnerror (timer : nat) (url : string) (callback : Callback)
| PreloadTimeout (url : string) (promise : nat)
| PreloadOnload (timer : nat) (url : string) (promise : nat)
| PreloadOnerror (timer : nat) (url : string) (promise : nat).

(** A timer created by [setTimeout] is one-shot: it is [Armed] until its task
    runs ([Fired]) or [clearTimeout] removes it ([Cleared]). *)
Inductive TimerState : Type := Armed | Cleared | Fired.

Record Timer : Type := MkTimer {
  t_handler : Handler;
  t_delay : Z;
  t_state : TimerState
}.

(** An image element.  Assigning [src] starts a fetch; the fetch is made with
    the CORS mode the element has at that moment, which [request] records.
    One assignment of [src] ends in at most one [load] or [error] event. *)
Inductive LoadState : Type := Idle | Loading | Loaded | Broken.

Record Image : Type := MkImage {
  onload : option Handler;
  onerror : option Handler;
  crossOrigin : option string;
  src : option string;
  request : option (string * option string);
  load_state : LoadState
}.

Inductive PromiseState : Type :=
| Pending
| Fulfilled (value : string)
| Rejected (reason : JsError).

(** The host state: every object ever allocated, addressed by its index. *)
Record World : Type := MkWorld {
  images : list Image;
  timers : list Timer;
  promises : list PromiseState
}.

Definition empty_world : World := MkWorld [] [] [].

(** What a caller or a user can observe. *)
Inductive Obs : Type :=
| ConsoleWarn (msg : string)
| CallbackCall (cb : Callback) (arg : bool)
| PromiseSettled (p : nat) (st : PromiseState).

(** ** The monad of synchronous JavaScript code *)

Inductive Completion (A : Type) : Type :=
| Normal (a : A)
| Throw (e : JsError).
Arguments Normal {A} a.
Arguments Throw {A} e.

Definition JS (A : Type) : Type := World -> Completion A * World * list Obs.

Definition js_ret {A} (a : A) : JS A := fun w => (Normal a, w, []).

Definition js_bind {A B} (k : A -> JS B) (m : JS A) : JS B := fun w =>
  match m w with
  | (Normal a, w1, o1) =>
      match k a w1 with
      | (c, w2, o2) => (c, w2, o1 ++ o2)
      end
  | (Throw e, w1, o1) => (Throw e, w1, o1)
  end.

Definition js_throw {A} (e : JsError) : JS A := fun w => (Throw e, w, []).

Definition try_catch {A} (m : JS A) (h : JsError -> JS A) : JS A := fun w =>
  match m w with
  | (Throw e, w1, o1) =>
      match h e w1 with
      | (c, w2, o2) => (c, w2, o1 ++ o2)
      end
  | r => r
  end.

#[global] Instance JS_ret : MRet JS := @js_ret.
#[global] Instance JS_bind : MBind JS := @js_bind.

(** ** Host primitives *)

Definition with_images (l : list Image) (w : World) : World :=
  MkWorld l (timers w) (promises w).
Definition with_timers (l : list Timer) (w : World) : World :=
  MkWorld (images w) l (promises w).
Definition with_promises (l : list PromiseState) (w : World) : World :=
  MkWorld (images w) (timers w) l.

Definition blank_image : Image := MkImage None None None None None Idle.

(** [new Image()] *)
Definition new_Image : JS nat := fun w =>
  (Normal (length (images w)), with_images (images w ++ [blank_image]) w, []).

(** [setTimeout(handler, delay)] returns the id of a fresh armed timer. *)
Definition setTimeout (h : Handler) (delay : Z) : JS nat := fun w =>
  (Normal (length (timers w)), with_timers (timers w ++ [MkTimer h delay Armed]) w, []).

(** [clearTimeout(id)]: cancels an armed timer, and is silent on anything
    else (an unknown id, a timer that has fired or was cleared before). *)
Definition clearTimeout (t : nat) : JS unit := fun w =>
  match timers w !! t with
  | Some tm =>
      match t_state tm with
      | Armed => (Normal tt, with_timers (<[t := MkTimer (t_handler tm) (t_delay tm) Cleared]> (timers w)) w, [])
      | _ => (Normal tt, w, [])
      end
  | None => (Normal tt, w, [])
  end.

(** Property writes on an image; a write through a dangling reference is a
    [TypeError]. *)
Definition update_image (i : nat) (f : Image -> Image) : JS unit := fun w =>
  match images w !! i with
  | Some im => (Normal tt, with_images (<[i := f im]> (images w)) w, [])
  | None => (Throw (MkError "TypeError: cannot set properties of undefined"), w, [])
  end.

Definition set_onload (i : nat) (h : Handler) : JS unit :=
  update_image i (fun im =>
    MkImage (Some h) (onerror im) (crossOrigin im) (src im) (request im) (load_state im)).

Definition set_onerror (i : nat) (h : Handler) : JS unit :=
  update_image i (fun im =>
    MkImage (onload im) (Some h) (crossOrigin im) (src im) (request im) (load_state im)).

Definition set_crossOrigin (i : nat) (mode : string) : JS unit :=
  update_image i (fun im =>
    MkImage (onload im) (onerror im) (Some mode) (src im) (request im) (load_state im)).

(** [img.src = url] starts the fetch, with the CORS mode set so far. *)
Definition set_src (i : nat) (url : string) : JS unit :=
  update_image i (fun im =>
    MkImage (onload im) (onerror im) (crossOrigin im) (Some url)
            (Some (url, crossOrigin im)) Loading).

(** [console.warn(msg)] *)
Definition console_warn (msg : string) : JS unit := fun w =>
  (Normal tt, w, [ConsoleWarn msg]).

(** [callback(arg)] *)
Definition call (cb : Callback) (arg : bool) : JS unit := fun w =>
  (Normal tt, w, [CallbackCall cb arg]).

(** The resolving functions of a promise act on a pending promise only. *)
Definition settle (p : nat) (st : PromiseState) : JS unit := fun w =>
  match promises w !! p with
  | Some Pending => (Normal tt, with_promises (<[p := st]> (promises w)) w, [PromiseSettled p st])
  | _ => (Normal tt, w, [])
  end.

Definition resolve (p : nat) (value : string) : JS unit := settle p (Fulfilled value).
Definition reject (p : nat) (reason : JsError) : JS unit := settle p (Rejected reason).

(** [new Promise(executor)]: the executor runs at once; if it throws, the
    promise is rejected with what it threw. *)
Definition new_Promise (executor : nat -> JS unit) : JS nat := fun w =>
  let p := length (promises w) in
  (try_catch (executor p) (fun e => reject p e) ≫= (fun _ => mret p))
    (with_promises (promises w ++ [Pending]) w).

(** ** The source: cors-fixer.js *)

(** The closures.  Template literals are string concatenations. *)
Definition run_handler (h : Handler) : JS unit :=
  match h with
  | CheckTimeout url callback =>
      console_warn ("Image check timeout: " +:+ url);;
      call callback false
  | CheckOnload timer callback =>
      clearTimeout timer;;
      call callback true
  | CheckOnerror timer url callback =>
      clearTimeout timer;;
      console_warn ("Image failed to load: " +:+ url);;
      call callback false
  | PreloadTimeout url promise =>
      console_warn ("Image load timeout: " +:+ url);;
      reject promise (MkError ("Image load timeout: " +:+ url))
  | PreloadOnload timer url promise =>
      clearTimeout timer;;
      resolve promise url
  | PreloadOnerror timer url promise =>
      clearTimeout timer;;
      console_warn ("Failed to load image: " +:+ url);;
      reject promise (MkError ("Failed to load image: " +:+ url))
  end.

(** [function checkImageExists(url, callback, timeout = 5000)].  An omitted
    argument is [None]; the function has no [return], its value is
    [undefined], here [tt]. *)
Definition checkImageExists (url : string) (callback : Callback) (timeout : option Z)
  : JS unit :=
  let timeout := default 5000%Z timeout in
  img ← new_Image;
  timer ← setTimeout (CheckTimeout url callback) timeout;
  set_onload img (CheckOnload timer callback);;
  set_onerror img (CheckOnerror timer url callback);;
  set_crossOrigin img "anonymous";;
  set_src img url.

(** [function preloadImage(url, timeout = 5000)] *)
Definition preloadImage (url : string) (timeout : option Z) : JS nat :=
  let timeout := default 5000%Z timeout in
  new_Promise (fun promise =>
    img ← new_Image;
    timer ← setTimeout (PreloadTimeout url promise) timeout;
    set_onload img (PreloadOnload timer url promise);;
    set_onerror img (PreloadOnerror timer url promise);;
    set_crossOrigin img "anonymous";;
    set_src img url).

(** ** The event loop *)

Inductive Event : Type :=
| TimerFire (t : nat)
| ImgLoad (i : nat)
| ImgError (i : nat).

Definition mark_timer (t : nat) (tm : Timer) (st : TimerState) (w : World) : World :=
  with_timers (<[t := MkTimer (t_handler tm) (t_delay tm) st]> (timers w)) w.

Definition mark_image (i : nat) (im : Image) (st : LoadState) (w : World) : World :=
  with_images (<[i := MkImage (onload im) (onerror im) (crossOrigin im) (src im) (request im) st]> (images w)) w.

(** An event handler attribute that is not set dispatches to nothing; what a
    handler throws is reported by the host and goes no further. *)
Definition fire (h : option Handler) (w : World) : list Obs * World :=
  match h with
  | Some h => match run_handler h w with (_, w', out) => (out, w') end
  | None => ([], w)
  end.

(** One task of the event loop.  [None]: the host cannot produce this event
    in this state (the timer is not armed, the image is not loading).  There
    is no clock: a timer records its delay, and the host is free to dispatch
    the enabled events in any order. *)
Definition dispatch (e : Event) (w : World) : option (list Obs * World) :=
  match e with
  | TimerFire t =>
      match timers w !! t with
      | Some tm =>
          match t_state tm with
          | Armed => Some (fire (Some (t_handler tm)) (mark_timer t tm Fired w))
          | _ => None
          end
      | None => None
      end
  | ImgLoad i =>
      match images w !! i with
      | Some im =>
          match load_state im with
          | Loading => Some (fire (onload im) (mark_image i im Loaded w))
          | _ => None
          end
      | None => None
      end
  | ImgError i =>
      match images w !! i with
      | Some im =>
          match load_state im with
          | Loading => Some (fire (onerror im) (mark_image i im Broken w))
          | _ => None
          end
      | None => None
      end
  end.

(** A run: the events in the order the loop dispatches them, each paired
    with what it made observable. *)
Fixpoint run (evs : list Event) (w : World) : option (list (Event * list Obs) * World) :=
  match evs with
  | [] => Some ([], w)
  | e :: evs' =>
      match dispatch e w with
      | Some (out, w1) =>
          match run evs' w1 with
          | Some (steps, w2) => Some ((e, out) :: steps, w2)
          | None => None
          end
      | None => None
      end
  end.

Definition observations (steps : list (Event * list Obs)) : list Obs :=
  concat (map snd steps).

(** The three components of a finished synchronous call. *)
Definition result_of {A} (r : Completion A * World * list Obs) : Completion A := r.1.1.
Definition world_of {A} (r : Completion A * World * list Obs) : World := r.1.2.
Definition output_of {A} (r : Completion A * World * list Obs) : list Obs := r.2.

(** ** What the observers see *)

#[global] Instance Callback_eq_dec : EqDecision Callback.
Proof. solve_decision. Defined.

(** The arguments [cb] was called with, in order. *)
Fixpoint calls_of (cb : Callback) (obs : list Obs) : list bool :=
  match obs with
  | [] => []
  | CallbackCall cb' arg :: obs' =>
      if decide (cb' = cb) then arg :: calls_of cb obs' else calls_of cb obs'
  | _ :: obs' => calls_of cb obs'
  end.

(** The settlements of promise [p], in order. *)
Fixpoint settlements (p : nat) (obs : list Obs) : list PromiseState :=
  match obs with
  | [] => []
  | PromiseSettled p' st :: obs' =>
      if decide (p' = p) then st :: settlements p obs' else settlements p obs'
  | _ :: obs' => settlements p obs'
  end.

(** The warnings on the console, in order. *)
Fixpoint warnings (obs : list Obs) : list string :=
  match obs with
  | [] => []
  | ConsoleWarn msg :: obs' => msg :: warnings obs'
  | _ :: obs' => warnings obs'
  end.

(** [s] occurs in [msg]. *)
Definition embeds (s msg : string) : Prop :=
  exists pre post, msg = pre +:+ s +:+ post.

(** The timer is among the host's active timers: it can still fire. *)
Definition timer_active (t : nat) (w : World) : bool :=
  match timers w !! t with
  | Some tm => match t_state tm with Armed => true | _ => false end
  | None => false
  end.

(** A failing path, as the diagnostics interface describes it: one warning
    made of a lead text that carries the reason [tag], followed by the URL,
    and then the report of the outcome. *)
Definition failing_path (url tag : string) (report : Obs)
    (r : option (list Obs * World)) : Prop :=
  exists lead w', r = Some ([ConsoleWarn (lead +:+ url); report], w') /\ embeds tag lead.

(** ** One probe *)

(** The events of the probe that owns image [i] and timer [t]. *)
Inductive ProbeEvent : Type := Timeout | LoadOk | LoadErr.

Definition probe_event (i t : nat) (pe : ProbeEvent) : Event :=
  match pe with
  | Timeout => TimerFire t
  | LoadOk => ImgLoad i
  | LoadErr => ImgError i
  end.

Definition owns (i t : nat) (e : Event) : bool :=
  match e with
  | TimerFire t' => Nat.eqb t' t
  | ImgLoad i' | ImgError i' => Nat.eqb i' i
  end.

(** The two exported operations, as a caller chooses between them. *)
Inductive Op : Type :=
| OpCheck (callback : Callback) (timeout : option Z)
| OpPreload (timeout : option Z).

Definition world_after (op : Op) (url : string) (w : World) : World :=
  match op with
  | OpCheck callback timeout => world_of (checkImageExists url callback timeout w)
  | OpPreload timeout => world_of (preloadImage url timeout w)
  end.

(** What belongs to a probe: its image, its timer and, for [preloadImage],
    its promise. *)
Definition view (op : Op) (i t p : nat) (w : World)
  : option Image * option Timer * option PromiseState :=
  (images w !! i, timers w !! t,
   match op with OpPreload _ => promises w !! p | OpCheck _ _ => None end).

(** *** The probe as a state machine

    The definitions from here to [in_world] summarise the code above and are
    no part of the model: the objects a call allocates ([probe_ext]) and what
    [dispatch] does to them ([probe_step]).  Lemmas [world_after_eq] and
    [dispatch_probe] prove the summary equal to the code's behaviour. *)

(** Worlds grow at the end: [extend w x] is [w] followed by the objects of
    [x]. *)
Definition extend (w x : World) : World :=
  MkWorld (images w ++ images x) (timers w ++ timers x) (promises w ++ promises x).

Inductive Kind : Type := KCheck (callback : Callback) | KPreload.

Record Probe : Type := MkProbe {
  pr_kind : Kind;
  pr_url : string;
  pr_delay : Z;
  pr_image : nat;
  pr_timer : nat;
  pr_promise : nat
}.

Record ProbeSt : Type := MkSt {
  st_load : LoadState;
  st_timer : TimerState;
  st_promise : PromiseState
}.

Definition init_st : ProbeSt := MkSt Loading Armed Pending.

Definition kind_of (op : Op) : Kind :=
  match op with OpCheck callback _ => KCheck callback | OpPreload _ => KPreload end.

Definition timeout_of (op : Op) : option Z :=
  match op with OpCheck _ timeout | OpPreload timeout => timeout end.

Definition probe_of (op : Op) (url : string) (w : World) : Probe :=
  MkProbe (kind_of op) url (default 5000%Z (timeout_of op))
          (length (images w)) (length (timers w)) (length (promises w)).

Definition probe_ext (pr : Probe) (st : ProbeSt) : World :=
  let url := pr_url pr in
  let t := pr_timer pr in
  let p := pr_promise pr in
  match pr_kind pr with
  | KCheck cb =>
      MkWorld [MkImage (Some (CheckOnload t cb)) (Some (CheckOnerror t url cb))
                       (Some "anonymous") (Some url) (Some (url, Some "anonymous"))
                       (st_load st)]
              [MkTimer (CheckTimeout url cb) (pr_delay pr) (st_timer st)]
              []
  | KPreload =>
      MkWorld [MkImage (Some (PreloadOnload t url p)) (Some (PreloadOnerror t url p))
                       (Some "anonymous") (Some url) (Some (url, Some "anonymous"))
                       (st_load st)]
              [MkTimer (PreloadTimeout url p) (pr_delay pr) (st_timer st)]
              [st_promise st]
  end.

Definition cancel (ts : TimerState) : TimerState :=
  match ts with Armed => Cleared | _ => ts end.

Definition settle_st (p : nat) (new old : PromiseState) : list Obs * PromiseState :=
  match old with
  | Pending => ([PromiseSettled p new], new)
  | _ => ([], old)
  end.

Definition timeout_step (pr : Probe) (st : ProbeSt) : list Obs * ProbeSt :=
  match pr_kind pr with
  | KCheck cb =>
      ([ConsoleWarn ("Image check timeout: " +:+ pr_url pr); CallbackCall cb false],
       MkSt (st_load st) Fired (st_promise st))
  | KPreload =>
      let r := settle_st (pr_promise pr)
                 (Rejected (MkError ("Image load timeout: " +:+ pr_url pr))) (st_promise st) in
      (ConsoleWarn ("Image load timeout: " +:+ pr_url pr) :: r.1,
       MkSt (st_load st) Fired r.2)
  end.

Definition load_step (pr : Probe) (st : ProbeSt) : list Obs * ProbeSt :=
  match pr_kind pr with
  | KCheck cb =>
      ([CallbackCall cb true], MkSt Loaded (cancel (st_timer st)) (st_promise st))
  | KPreload =>
      let r := settle_st (pr_promise pr) (Fulfilled (pr_url pr)) (st_promise st) in
      (r.1, MkSt Loaded (cancel (st_timer st)) r.2)
  end.

Definition error_step (pr : Probe) (st : ProbeSt) : list Obs * ProbeSt :=
  match pr_kind pr with
  | KCheck cb =>
      ([ConsoleWarn ("Image failed to load: " +:+ pr_url pr); CallbackCall cb false],
       MkSt Broken (cancel (st_timer st)) (st_promise st))
  | KPreload =>
      let r := settle_st (pr_promise pr)
                 (Rejected (MkError ("Failed to load image: " +:+ pr_url pr))) (st_promise st) in
      (ConsoleWarn ("Failed to load image: " +:+ pr_url pr) :: r.1,
       MkSt Broken (cancel (st_timer st)) r.2)
  end.

Definition probe_step (pr : Probe) (pe : ProbeEvent) (st : ProbeSt)
  : option (list Obs * ProbeSt) :=
  match pe with
  | Timeout =>
      match st_timer st with Armed => Some (timeout_step pr st) | _ => None end
  | LoadOk =>
      match st_load st with Loading => Some (load_step pr st) | _ => None end
  | LoadErr =>
      match st_load st with Loading => Some (error_step pr st) | _ => None end
  end.

Fixpoint probe_run (pr : Probe) (pevs : list ProbeEvent) (st : ProbeSt)
  : option (list (Event * list Obs) * ProbeSt) :=
  match pevs with
  | [] => Some ([], st)
  | pe :: pevs' =>
      match probe_step pr pe st with
      | Some (out, st1) =>
          match probe_run pr pevs' st1 with
          | Some (steps, st2) =>
              Some ((probe_event (pr_image pr) (pr_timer pr) pe, out) :: steps, st2)
          | None => None
          end
      | None => None
      end
  end.

(** [pr] sits right after the objects of [B]. *)
Definition placed (pr : Probe) (B : World) : Prop :=
  pr_image pr = length (images B) /\ pr_timer pr = length (timers B)
  /\ pr_promise pr = length (promises B).

(** The world made of [B], then the probe in state [st], then [X]. *)
Definition in_world (B : World) (pr : Probe) (X : World) (st : ProbeSt) : World :=
  extend (extend B (probe_ext pr st)) X.

(** [probe_step] read back as a step of the world. *)
Definition lift_step (B : World) (pr : Probe) (X : World)
    (r : option (list Obs * ProbeSt)) : option (list Obs * World) :=
  match r with
  | Some (out, st) => Some (out, in_world B pr X st)
  | None => None
  end.

Definition lift_run (B : World) (pr : Probe) (X : World)
    (r : option (list (Event * list Obs) * ProbeSt))
  : option (list (Event * list Obs) * World) :=
  match r with
  | Some (steps, st) => Some (steps, in_world B pr X st)
  | None => None
  end.

(** What [view] shows of a probe in state [st]. *)
Definition probe_view (pr : Probe) (st : ProbeSt)
  : option Image * option Timer * option PromiseState :=
  (images (probe_ext pr st) !! 0, timers (probe_ext pr st) !! 0,
   promises (probe_ext pr st) !! 0).

(** ** Two probes *)

(** An interleaving of the events of two probes: [false] tags an event of
    the first probe, [true] one of the second. *)
Definition pick (i1 t1 i2 t2 : nat) (x : bool * ProbeEvent) : Event :=
  if x.1 then probe_event i2 t2 x.2 else probe_event i1 t1 x.2.

Definition events_of (b : bool) (evs : list (bool * ProbeEvent)) : list ProbeEvent :=
  map snd (List.filter (fun x => Bool.eqb x.1 b) evs).

Definition steps_of (i t : nat) (steps : list (Event * list Obs))
  : list (Event * list Obs) :=
  List.filter (fun s => owns i t s.1) steps.

(** The world made of [w] and two probes next to each other. *)
Definition both (w : World) (pr1 pr2 : Probe) (st1 st2 : ProbeSt) : World :=
  extend (extend w (probe_ext pr1 st1)) (probe_ext pr2 st2).

(** ** What an event can change

    The vocabulary of the statements about arbitrary worlds: the timer and
    the promise a closure captures, the parts of an image and of a timer that
    are fixed when the probe is set up, and the relation between a world and
    a later one. *)

Definition handler_timer (h : Handler) : option nat :=
  match h with
  | CheckTimeout _ _ | PreloadTimeout _ _ => None
  | CheckOnload timer _ | CheckOnerror timer _ _
  | PreloadOnload timer _ _ | PreloadOnerror timer _ _ => Some timer
  end.

Definition handler_promise (h : Handler) : option nat :=
  match h with
  | PreloadTimeout _ promise | PreloadOnload _ _ promise
  | PreloadOnerror _ _ promise => Some promise
  | _ => None
  end.

Definition image_config (im : Image)
  : option Handler * option Handler * option string * option string
    * option (string * option string) :=
  (onload im, onerror im, crossOrigin im, src im, request im).

Definition timer_config (tm : Timer) : Handler * Z := (t_handler tm, t_delay tm).

(** The image has a fetch in flight: it can still deliver [load] or [error]. *)
Definition image_loading (i : nat) (w : World) : bool :=
  match images w !! i with
  | Some im => match load_state im with Loading => true | _ => false end
  | None => false
  end.

Definition timer_events (t : nat) (evs : list Event) : nat :=
  length (List.filter (fun e => match e with TimerFire t' => Nat.eqb t' t | _ => false end) evs).

Definition image_events (i : nat) (evs : list Event) : nat :=
  length (List.filter
            (fun e => match e with ImgLoad i' | ImgError i' => Nat.eqb i' i | _ => false end)
            evs).

(** [w'] is [w] after some events: nothing was allocated or reconfigured,
    and what was finished in [w] is finished in [w']. *)
Definition evolves (w w' : World) : Prop :=
  image_config <$> images w' = image_config <$> images w
  /\ timer_config <$> timers w' = timer_config <$> timers w
  /\ length (promises w') = length (promises w)
  /\ (forall t, timer_active t w = false -> timer_active t w' = false)
  /\ (forall i, image_loading i w = false -> image_loading i w' = false)
  /\ (forall p s, promises w !! p = Some s -> s <> Pending -> promises w' !! p = Some s).

(** ** Comparing probes that live at different places

    Two probes in different pages, or at different places of one page, hold
    different handles.  [told] is what a run made observable, step by step,
    with the promise handle left out; [probe_state] is where a probe stands:
    the load state of its image, the state of its timer and, for
    [preloadImage], the state of its promise. *)
Definition anon_obs (o : Obs) : Obs :=
  match o with
  | PromiseSettled _ st => PromiseSettled 0 st
  | _ => o
  end.

(** What a call makes observable before it returns. *)
Definition output_after (op : Op) (url : string) (w : World) : list Obs :=
  match op with
  | OpCheck callback timeout => output_of (checkImageExists url callback timeout w)
  | OpPreload timeout => output_of (preloadImage url timeout w)
  end.

Definition told (steps : list (Event * list Obs)) : list (list Obs) :=
  map (fun s => map anon_obs s.2) steps.

Definition probe_state (op : Op) (i t p : nat) (w : World)
  : option LoadState * option TimerState * option PromiseState :=
  (load_state <$> images w !! i, t_state <$> timers w !! t,
   match op with OpPreload _ => promises w !! p | OpCheck _ _ => None end).

(** * Lemmas *)

(** ** Reading and writing an object at a known place *)

Lemma lookup_snoc {A} (l : list A) (x : A) : (l ++ [x]) !! length l = Some x.
Proof. induction l as [|a l IH]; [reflexivity | exact IH]. Qed.

Lemma insert_snoc {A} (l : list A) (x y : A) : <[length l := y]> (l ++ [x]) = l ++ [y].
Proof. induction l as [|a l IH]; [reflexivity | cbn; f_equal; exact IH]. Qed.

Lemma lookup_mid {A} (l k : list A) (x : A) : ((l ++ [x]) ++ k) !! length l = Some x.
Proof. induction l as [|a l IH]; [reflexivity | exact IH]. Qed.

Lemma insert_mid {A} (l k : list A) (x y : A) :
  <[length l := y]> ((l ++ [x]) ++ k) = (l ++ [y]) ++ k.
Proof. induction l as [|a l IH]; [reflexivity | cbn; f_equal; exact IH]. Qed.

Ltac js_unfold :=
  unfold new_Promise, try_catch, run_handler, resolve, reject, settle, call,
    console_warn, set_src, set_crossOrigin, set_onerror, set_onload,
    update_image, clearTimeout, setTimeout, new_Image,
    mbind, mret, JS_bind, JS_ret, js_bind, js_ret,
    with_images, with_timers, with_promises.

Ltac js_simpl :=
  js_unfold;
  repeat (progress (cbn -[lookup insert String.append];
                    rewrite ?lookup_snoc, ?insert_snoc, ?lookup_mid, ?insert_mid)).

Lemma extend_empty_r (w : World) : extend w empty_world = w.
Proof. destruct w; unfold extend; cbn. by rewrite !app_nil_r. Qed.

(** ** The calls allocate a probe in its initial state *)

Lemma checkImageExists_eq url cb timeout w :
  checkImageExists url cb timeout w
  = (Normal tt, extend w (probe_ext (probe_of (OpCheck cb timeout) url w) init_st), []).
Proof.
  unfold checkImageExists, extend. js_simpl. by rewrite app_nil_r.
Qed.

Lemma preloadImage_eq url timeout w :
  preloadImage url timeout w
  = (Normal (length (promises w)),
     extend w (probe_ext (probe_of (OpPreload timeout) url w) init_st), []).
Proof. unfold preloadImage, extend. js_simpl. reflexivity. Qed.

Lemma world_after_eq op url w :
  world_after op url w = in_world w (probe_of op url w) empty_world init_st.
Proof.
  unfold in_world. rewrite extend_empty_r.
  destruct op; unfold world_after;
    [rewrite checkImageExists_eq | rewrite preloadImage_eq]; reflexivity.
Qed.

Lemma placed_probe_of op url w : placed (probe_of op url w) w.
Proof. destruct op; repeat split. Qed.

(** ** [dispatch] on a probe is [probe_step] *)

Lemma dispatch_probe B pr X st pe :
  placed pr B ->
  dispatch (probe_event (pr_image pr) (pr_timer pr) pe) (in_world B pr X st)
  = lift_step B pr X (probe_step pr pe st).
Proof.
  destruct pr as [k url d i t p]. intros (Hi & Ht & Hp). cbn in Hi, Ht, Hp. subst.
  destruct st as [ls ts ps].
  unfold in_world, extend, probe_ext, dispatch, probe_event, fire, mark_timer, mark_image.
  destruct k, pe, ls, ts; js_simpl; try reflexivity; destruct ps; js_simpl; reflexivity.
Qed.

Lemma run_probe B pr X pevs : forall st,
  placed pr B ->
  run (map (probe_event (pr_image pr) (pr_timer pr)) pevs) (in_world B pr X st)
  = lift_run B pr X (probe_run pr pevs st).
Proof.
  induction pevs as [|pe pevs IH]; intros st Hpl; [reflexivity|].
  cbn [map run probe_run]. rewrite dispatch_probe by assumption.
  destruct (probe_step pr pe st) as [[out st1]|]; [|reflexivity].
  cbn [lift_step]. rewrite IH by assumption.
  destruct (probe_run pr pevs st1) as [[steps st2]|]; reflexivity.
Qed.

(** A run of a probe from the world its call returns. *)
Lemma run_after op url w pevs :
  run (map (probe_event (length (images w)) (length (timers w))) pevs) (world_after op url w)
  = lift_run w (probe_of op url w) empty_world (probe_run (probe_of op url w) pevs init_st).
Proof.
  rewrite world_after_eq.
  rewrite <- (run_probe w (probe_of op url w) empty_world pevs init_st (placed_probe_of op url w)).
  destruct op; reflexivity.
Qed.

Lemma view_in_world op url w B X st :
  let pr := probe_of op url w in
  placed pr B ->
  view op (pr_image pr) (pr_timer pr) (pr_promise pr) (in_world B pr X st) = probe_view pr st.
Proof.
  intros pr (Hi & Ht & Hp). unfold view, probe_view, in_world, extend.
  rewrite Hi, Ht, Hp. subst pr.
  destruct op; cbn -[lookup]; rewrite !lookup_mid; reflexivity.
Qed.

(** ** Two probes side by side *)

Lemma owns_own i t pe : owns i t (probe_event i t pe) = true.
Proof. destruct pe; cbn; apply Nat.eqb_refl. Qed.

Lemma owns_other i1 t1 i2 t2 pe :
  i1 <> i2 -> t1 <> t2 -> owns i2 t2 (probe_event i1 t1 pe) = false.
Proof. intros Hi Ht. destruct pe; cbn; apply Nat.eqb_neq; assumption. Qed.

Lemma probe_ext_sizes pr st :
  length (images (probe_ext pr st)) = 1 /\ length (timers (probe_ext pr st)) = 1.
Proof. unfold probe_ext. destruct (pr_kind pr); split; reflexivity. Qed.

Section TwoProbes.
Variables (w : World) (pr1 pr2 : Probe).
Hypothesis place1 : placed pr1 w.
Hypothesis place2 : forall st1, placed pr2 (extend w (probe_ext pr1 st1)).

Let i1 := pr_image pr1.
Let t1 := pr_timer pr1.
Let i2 := pr_image pr2.
Let t2 := pr_timer pr2.

Lemma two_probes_apart : i1 <> i2 /\ t1 <> t2.
Proof using place1 place2.
  destruct place1 as (Hi & Ht & _).
  destruct (place2 init_st) as (Hi2 & Ht2 & _).
  destruct (probe_ext_sizes pr1 init_st) as [Hli Hlt].
  subst i1 t1 i2 t2. rewrite Hi, Ht, Hi2, Ht2. cbn.
  rewrite !length_app, Hli, Hlt. lia.
Qed.

Lemma dispatch_first st1 st2 pe :
  dispatch (probe_event i1 t1 pe) (both w pr1 pr2 st1 st2)
  = match probe_step pr1 pe st1 with
    | Some (out, st1') => Some (out, both w pr1 pr2 st1' st2)
    | None => None
    end.
Proof using place1.
  change (both w pr1 pr2 st1 st2) with (in_world w pr1 (probe_ext pr2 st2) st1).
  subst i1 t1. rewrite dispatch_probe by exact place1.
  destruct (probe_step pr1 pe st1) as [[out st1']|]; reflexivity.
Qed.

Lemma dispatch_second st1 st2 pe :
  dispatch (probe_event i2 t2 pe) (both w pr1 pr2 st1 st2)
  = match probe_step pr2 pe st2 with
    | Some (out, st2') => Some (out, both w pr1 pr2 st1 st2')
    | None => None
    end.
Proof using place2.
  rewrite <- (extend_empty_r (both w pr1 pr2 st1 st2)).
  change (extend (both w pr1 pr2 st1 st2) empty_world)
    with (in_world (extend w (probe_ext pr1 st1)) pr2 empty_world st2).
  subst i2 t2. rewrite dispatch_probe by apply place2.
  destruct (probe_step pr2 pe st2) as [[out st2']|]; [|reflexivity].
  cbn [lift_step]. unfold in_world. rewrite extend_empty_r. reflexivity.
Qed.

(** An interleaved run splits into the two runs of the probes: each probe
    takes the steps it would take alone. *)
Lemma interleave evs : forall st1 st2 steps w',
  run (map (pick i1 t1 i2 t2) evs) (both w pr1 pr2 st1 st2) = Some (steps, w') ->
  exists st1' st2',
    probe_run pr1 (events_of false evs) st1 = Some (steps_of i1 t1 steps, st1')
    /\ probe_run pr2 (events_of true evs) st2 = Some (steps_of i2 t2 steps, st2')
    /\ w' = both w pr1 pr2 st1' st2'.
Proof using place1 place2.
  destruct two_probes_apart as [Hi Ht].
  induction evs as [|[b pe] evs IH]; intros st1 st2 steps w' Hrun.
  - cbn in Hrun. injection Hrun as <- <-. exists st1, st2. repeat split.
  - cbn [map run] in Hrun. destruct b.
    + change (pick i1 t1 i2 t2 (true, pe)) with (probe_event i2 t2 pe) in Hrun.
      rewrite dispatch_second in Hrun.
      destruct (probe_step pr2 pe st2) as [[out st2a]|] eqn:Hstep; [|discriminate].
      destruct (run _ (both w pr1 pr2 st1 st2a)) as [[steps' w'']|] eqn:Hrest;
        [|discriminate].
      injection Hrun as <- <-.
      destruct (IH _ _ _ _ Hrest) as (st1' & st2' & H1 & H2 & ->).
      exists st1', st2'. unfold steps_of, events_of in *. cbn [List.filter fst snd Bool.eqb map].
      rewrite owns_own, (owns_other i2 t2 i1 t1) by congruence.
      cbn [probe_run]. rewrite Hstep. fold i2 t2. rewrite H2. auto.
    + change (pick i1 t1 i2 t2 (false, pe)) with (probe_event i1 t1 pe) in Hrun.
      rewrite dispatch_first in Hrun.
      destruct (probe_step pr1 pe st1) as [[out st1a]|] eqn:Hstep; [|discriminate].
      destruct (run _ (both w pr1 pr2 st1a st2)) as [[steps' w'']|] eqn:Hrest;
        [|discriminate].
      injection Hrun as <- <-.
      destruct (IH _ _ _ _ Hrest) as (st1' & st2' & H1 & H2 & ->).
      exists st1', st2'. unfold steps_of, events_of in *. cbn [List.filter fst snd Bool.eqb map].
      rewrite owns_own, (owns_other i1 t1 i2 t2) by congruence.
      cbn [probe_run]. rewrite Hstep. fold i1 t1. rewrite H1. auto.
Qed.
End TwoProbes.

Lemma probe_ext_placed pr pr2 w st st' :
  placed pr2 (extend w (probe_ext pr st)) -> placed pr2 (extend w (probe_ext pr st')).
Proof.
  unfold placed, extend, probe_ext. destruct (pr_kind pr); cbn; rewrite !length_app; cbn; auto.
Qed.

Lemma timer_active_in_world B pr X st :
  placed pr B ->
  timer_active (pr_timer pr) (in_world B pr X st)
  = match st_timer st with Armed => true | _ => false end.
Proof.
  intros (_ & Ht & _). unfold timer_active, in_world, extend, probe_ext. rewrite Ht.
  destruct (pr_kind pr); cbn -[lookup]; rewrite lookup_mid; reflexivity.
Qed.

Lemma timer_in_world B pr X st :
  placed pr B ->
  t_state <$> timers (in_world B pr X st) !! pr_timer pr = Some (st_timer st).
Proof.
  intros (_ & Ht & _). unfold in_world, extend, probe_ext. rewrite Ht.
  destruct (pr_kind pr); cbn -[lookup]; rewrite lookup_mid; reflexivity.
Qed.

Lemma image_in_world B pr X st :
  placed pr B ->
  load_state <$> images (in_world B pr X st) !! pr_image pr = Some (st_load st).
Proof.
  intros (Hi & _ & _). unfold in_world, extend, probe_ext. rewrite Hi.
  destruct (pr_kind pr); cbn -[lookup]; rewrite lookup_mid; reflexivity.
Qed.

Lemma promise_in_world B pr X st :
  placed pr B -> pr_kind pr = KPreload ->
  promises (in_world B pr X st) !! pr_promise pr = Some (st_promise st).
Proof.
  intros (_ & _ & Hp) Hk. unfold in_world, extend, probe_ext. rewrite Hp, Hk.
  cbn -[lookup]. apply lookup_mid.
Qed.

Lemma embeds_lead (tag pre post : string) : embeds tag (pre +:+ tag +:+ post).
Proof. exists pre, post. reflexivity. Qed.

(** * The claims *)

(** ** Synchronous behaviour of the two calls *)

(** C7. When the timeout argument is omitted, the timer of the probe is
    created with delay 5000, for [checkImageExists] and for [preloadImage]:
    the call is the call with 5000 passed explicitly. *)
Theorem omitted_timeout_is_5000 (url : string) (cb : Callback) (w : World) :
  checkImageExists url cb None w = checkImageExists url cb (Some 5000%Z) w
  /\ t_delay <$> timers (world_of (checkImageExists url cb None w)) !! length (timers w)
     = Some 5000%Z
  /\ preloadImage url None w = preloadImage url (Some 5000%Z) w
  /\ t_delay <$> timers (world_of (preloadImage url None w)) !! length (timers w)
     = Some 5000%Z.
Proof.
  repeat split.
  - rewrite checkImageExists_eq. unfold world_of, extend. cbn -[lookup].
    by rewrite lookup_snoc.
  - rewrite preloadImage_eq. unfold world_of, extend. cbn -[lookup].
    by rewrite lookup_snoc.
Qed.

(** A timeout that is passed is the delay of the timer, whatever its sign. *)
Lemma given_timeout_is_used (op_timeout : Z) (url : string) (cb : Callback) (w : World) :
  t_delay <$> timers (world_of (checkImageExists url cb (Some op_timeout) w)) !! length (timers w)
  = Some op_timeout
  /\ t_delay <$> timers (world_of (preloadImage url (Some op_timeout) w)) !! length (timers w)
     = Some op_timeout.
Proof.
  rewrite checkImageExists_eq, preloadImage_eq. unfold world_of, extend.
  cbn -[lookup]. by rewrite !lookup_snoc.
Qed.

(** C8. Either operation starts the image load with anonymous cross-origin
    credentials: the image of the probe has [crossOrigin = "anonymous"], and
    the fetch that the assignment of [src] started was made in that mode, so
    the mode was set before the URL was assigned. *)
Theorem load_is_requested_anonymously (op : Op) (url : string) (w : World) :
  exists im,
    images (world_after op url w) !! length (images w) = Some im
    /\ crossOrigin im = Some "anonymous"
    /\ src im = Some url
    /\ request im = Some (url, Some "anonymous")
    /\ load_state im = Loading.
Proof.
  destruct op as [cb timeout|timeout]; unfold world_after;
    [rewrite checkImageExists_eq | rewrite preloadImage_eq];
    unfold world_of, extend; cbn -[lookup]; rewrite lookup_snoc;
    eexists; (split; [reflexivity|]); cbn; auto.
Qed.

(** The order of the two assignments matters in the model: with [src]
    assigned first, the fetch would have started without a CORS mode. *)
Example src_before_crossOrigin_requests_without_cors (url : string) :
  request <$> images (world_of ((img ← new_Image;
                                  set_src img url;;
                                  set_crossOrigin img "anonymous") empty_world)) !! 0
  = Some (Some (url, None)).
Proof. reflexivity. Qed.

(** C10. Neither operation validates its arguments or throws: for every URL
    (the empty string included) and every timeout (zero and negative
    included), [checkImageExists] completes normally with [undefined] and
    [preloadImage] completes normally with a promise, still pending; the
    synchronous part calls no callback, settles nothing and logs nothing. *)
Theorem calls_complete_normally (url : string) (cb : Callback) (timeout : option Z) (w : World) :
  result_of (checkImageExists url cb timeout w) = Normal tt
  /\ output_of (checkImageExists url cb timeout w) = []
  /\ result_of (preloadImage url timeout w) = Normal (length (promises w))
  /\ output_of (preloadImage url timeout w) = []
  /\ promises (world_of (preloadImage url timeout w)) !! length (promises w) = Some Pending.
Proof.
  rewrite checkImageExists_eq, preloadImage_eq.
  unfold result_of, output_of, world_of, extend. cbn -[lookup].
  rewrite lookup_snoc. auto.
Qed.

Example empty_url_negative_timeout :
  result_of (checkImageExists "" (MkCallback 0) (Some (-1)%Z) empty_world) = Normal tt
  /\ result_of (preloadImage "" (Some 0%Z) empty_world) = Normal 0.
Proof. split; reflexivity. Qed.

(** ** A load event that comes after the timeout *)

(** C1, at its failing run.  For every call of [checkImageExists], the host
    can run the timer task and deliver the [load] event afterwards: nothing
    in the timer's closure detaches [onload].  The callback is then invoked
    twice, with [false] and then with [true]. *)
Theorem checkImageExists_late_load_calls_back_again
    (url : string) (cb : Callback) (timeout : option Z) (w : World) :
  exists steps w',
    run [TimerFire (length (timers w)); ImgLoad (length (images w))]
        (world_of (checkImageExists url cb timeout w)) = Some (steps, w')
    /\ observations steps
       = [ConsoleWarn ("Image check timeout: " +:+ url);
          CallbackCall cb false; CallbackCall cb true]
    /\ calls_of cb (observations steps) = [false; true].
Proof.
  change [TimerFire (length (timers w)); ImgLoad (length (images w))]
    with (map (probe_event (length (images w)) (length (timers w))) [Timeout; LoadOk]).
  change (world_of (checkImageExists url cb timeout w))
    with (world_after (OpCheck cb timeout) url w).
  rewrite run_after. cbn. eexists _, _. split; [reflexivity|]. split; [reflexivity|].
  cbn. destruct (decide (cb = cb)); [reflexivity | congruence].
Qed.

(** C2, at its failing run.  A [checkImageExists] probe whose timer fires and
    whose image then fails reports two outcomes, timed-out and failed. *)
Theorem checkImageExists_reports_timeout_then_failure :
  let cb := MkCallback 0 in
  let url := "https://missing.example/none.png" in
  let w := world_of (checkImageExists url cb (Some 100%Z) empty_world) in
  (fun r => observations r.1) <$> run [TimerFire 0; ImgError 0] w
  = Some [ConsoleWarn "Image check timeout: https://missing.example/none.png";
          CallbackCall cb false;
          ConsoleWarn "Image failed to load: https://missing.example/none.png";
          CallbackCall cb false].
Proof. reflexivity. Qed.

(** C3, at its failing run.  The timer of a probe fires first and reports the
    failure; the late [load] event of [checkImageExists] then invokes the
    callback a second time, and the late [error] event of [preloadImage]
    settles nothing but logs a second warning. *)
Theorem late_events_after_timeout_are_observable :
  let cb := MkCallback 0 in
  let url := "https://slow.example/big.png" in
  fst <$> run [TimerFire 0; ImgLoad 0]
              (world_of (checkImageExists url cb (Some 100%Z) empty_world))
  = Some [(TimerFire 0, [ConsoleWarn "Image check timeout: https://slow.example/big.png";
                         CallbackCall cb false]);
          (ImgLoad 0, [CallbackCall cb true])]
  /\ fst <$> run [TimerFire 0; ImgError 0]
                 (world_of (preloadImage url (Some 100%Z) empty_world))
     = Some [(TimerFire 0,
              [ConsoleWarn "Image load timeout: https://slow.example/big.png";
               PromiseSettled 0
                 (Rejected (MkError "Image load timeout: https://slow.example/big.png"))]);
             (ImgError 0,
              [ConsoleWarn "Failed to load image: https://slow.example/big.png"])].
Proof. split; reflexivity. Qed.

(** X1. What does hold for [checkImageExists]: when the image event comes
    first, it clears the timer, no further event of the probe is possible,
    and the callback has been invoked exactly once, with [true] for a load
    and [false] for an error. *)
Lemma checkImageExists_image_event_first
    (url : string) (cb : Callback) (timeout : option Z) (w : World)
    (pe : ProbeEvent) (rest : list ProbeEvent)
    (steps : list (Event * list Obs)) (w' : World) :
  pe <> Timeout ->
  run (map (probe_event (length (images w)) (length (timers w))) (pe :: rest))
      (world_of (checkImageExists url cb timeout w)) = Some (steps, w') ->
  rest = []
  /\ calls_of cb (observations steps) = [match pe with LoadOk => true | _ => false end]
  /\ timer_active (length (timers w)) w' = false.
Proof.
  intros Hpe Hrun.
  change (world_of (checkImageExists url cb timeout w))
    with (world_after (OpCheck cb timeout) url w) in Hrun.
  rewrite run_after in Hrun.
  set (pr := probe_of (OpCheck cb timeout) url w) in *.
  assert (Hpl : placed pr w) by apply placed_probe_of.
  destruct (probe_run pr (pe :: rest) init_st) as [[steps0 st]|] eqn:Hpr; [|discriminate].
  cbn [lift_run] in Hrun. injection Hrun as <- <-.
  change (length (timers w)) with (pr_timer pr).
  rewrite (timer_active_in_world w pr empty_world st Hpl).
  destruct pe; [congruence| |];
    destruct rest as [|[] ?]; cbn in Hpr; try discriminate;
    injection Hpr as <- <-; cbn;
    (destruct (decide (cb = cb)); [auto | congruence]).
Qed.

(** ** Failing paths *)

(** C6, at its failing run.  For every probe of either operation the host
    can run the timer task and deliver the [error] event afterwards: the
    timer's closure leaves [onerror] attached, and in [preloadImage] the
    warning of [onerror] comes before the [reject] that the promise ignores.
    The probe, whose outcome was the timeout, has then written two
    warnings, not one. *)
Theorem late_error_warns_a_second_time (op : Op) (url : string) (w : World) :
  exists steps w',
    run [TimerFire (length (timers w)); ImgError (length (images w))]
        (world_after op url w) = Some (steps, w')
    /\ warnings (observations steps)
       = match op with
         | OpCheck _ _ =>
             ["Image check timeout: " +:+ url; "Image failed to load: " +:+ url]
         | OpPreload _ =>
             ["Image load timeout: " +:+ url; "Failed to load image: " +:+ url]
         end.
Proof.
  change [TimerFire (length (timers w)); ImgError (length (images w))]
    with (map (probe_event (length (images w)) (length (timers w))) [Timeout; LoadErr]).
  rewrite run_after.
  destruct op as [cb timeout|timeout]; cbn; eexists _, _; split; reflexivity.
Qed.

(** What holds of the diagnostics, path by path: the first event of a probe,
    when it is the timer task or the [error] event, writes exactly one
    warning, made of a reason tag and the URL of the probe, and the warning
    does not replace the outcome: the callback is still called with [false],
    the promise still rejected.  The successful path writes no warning. *)
Lemma failing_path_warns_once
    (url : string) (cb : Callback) (timeout : option Z) (w : World) :
  let i := length (images w) in
  let t := length (timers w) in
  let p := length (promises w) in
  let wc := world_of (checkImageExists url cb timeout w) in
  let wp := world_of (preloadImage url timeout w) in
  failing_path url "timeout" (CallbackCall cb false) (dispatch (TimerFire t) wc)
  /\ failing_path url "failed to load" (CallbackCall cb false) (dispatch (ImgError i) wc)
  /\ failing_path url "timeout"
       (PromiseSettled p (Rejected (MkError ("Image load timeout: " +:+ url))))
       (dispatch (TimerFire t) wp)
  /\ failing_path url "Failed to load"
       (PromiseSettled p (Rejected (MkError ("Failed to load image: " +:+ url))))
       (dispatch (ImgError i) wp)
  /\ (fun r => warnings r.1) <$> dispatch (ImgLoad i) wc = Some []
  /\ (fun r => warnings r.1) <$> dispatch (ImgLoad i) wp = Some [].
Proof.
  intros i t p wc wp.
  change wc with (world_after (OpCheck cb timeout) url w).
  change wp with (world_after (OpPreload timeout) url w).
  rewrite !world_after_eq.
  pose proof (placed_probe_of (OpCheck cb timeout) url w) as Hc.
  pose proof (placed_probe_of (OpPreload timeout) url w) as Hp.
  assert (Dc : forall pe, dispatch (probe_event i t pe)
                 (in_world w (probe_of (OpCheck cb timeout) url w) empty_world init_st) = _)
    by exact (fun pe => dispatch_probe w _ empty_world init_st pe Hc).
  assert (Dp : forall pe, dispatch (probe_event i t pe)
                 (in_world w (probe_of (OpPreload timeout) url w) empty_world init_st) = _)
    by exact (fun pe => dispatch_probe w _ empty_world init_st pe Hp).
  pose proof (Dc Timeout) as DcT. pose proof (Dc LoadErr) as DcE.
  pose proof (Dc LoadOk) as DcL. pose proof (Dp Timeout) as DpT.
  pose proof (Dp LoadErr) as DpE. pose proof (Dp LoadOk) as DpL.
  cbn [probe_event] in DcT, DcE, DcL, DpT, DpE, DpL.
  repeat split.
  - rewrite DcT. eexists "Image check timeout: ", _. split; [reflexivity|].
    apply (embeds_lead "timeout" "Image check " ": ").
  - rewrite DcE. eexists "Image failed to load: ", _. split; [reflexivity|].
    apply (embeds_lead "failed to load" "Image " ": ").
  - rewrite DpT. eexists "Image load timeout: ", _. split; [reflexivity|].
    apply (embeds_lead "timeout" "Image load " ": ").
  - rewrite DpE. eexists "Failed to load image: ", _. split; [reflexivity|].
    apply (embeds_lead "Failed to load" "" " image: ").
  - rewrite DcL. reflexivity.
  - rewrite DpL. reflexivity.
Qed.

(** ** The promise of [preloadImage] *)

(** C4. In every run of a [preloadImage] probe the promise settles at most
    once, and exactly once as soon as the timer is no longer pending (the
    host fires every timer that stays armed).  Once the promise is settled
    the timer is not among the active timers and cannot fire: [clearTimeout]
    removed it on the load and error paths, and on the timeout path it has
    run, which removes a one-shot timer as well. *)
Theorem preloadImage_settles_exactly_once
    (url : string) (timeout : option Z) (w : World)
    (pevs : list ProbeEvent) (steps : list (Event * list Obs)) (w' : World) :
  let i := length (images w) in
  let t := length (timers w) in
  let p := length (promises w) in
  run (map (probe_event i t) pevs) (world_of (preloadImage url timeout w)) = Some (steps, w') ->
  result_of (preloadImage url timeout w) = Normal p
  /\ length (settlements p (observations steps)) <= 1
  /\ (timer_active t w' = false -> length (settlements p (observations steps)) = 1)
  /\ (settlements p (observations steps) = [] <-> promises w' !! p = Some Pending)
  /\ (promises w' !! p <> Some Pending ->
      timer_active t w' = false /\ dispatch (TimerFire t) w' = None)
  /\ (forall pe rest, pevs = pe :: rest ->
      t_state <$> timers w' !! t
      = Some (match pe with Timeout => Fired | _ => Cleared end))
  /\ (timer_active t w' = true -> is_Some (dispatch (TimerFire t) w')).
Proof.
  intros i t p Hrun.
  change (world_of (preloadImage url timeout w))
    with (world_after (OpPreload timeout) url w) in Hrun.
  subst i t. rewrite run_after in Hrun.
  set (pr := probe_of (OpPreload timeout) url w) in *.
  assert (Hpl : placed pr w) by apply placed_probe_of.
  assert (Hk : pr_kind pr = KPreload) by reflexivity.
  split; [rewrite preloadImage_eq; reflexivity|].
  destruct (probe_run pr pevs init_st) as [[steps0 st]|] eqn:Hpr; [|discriminate].
  cbn [lift_run] in Hrun. injection Hrun as <- <-.
  change (length (timers w)) with (pr_timer pr).
  change p with (pr_promise pr).
  rewrite (timer_active_in_world w pr empty_world st Hpl),
          (promise_in_world w pr empty_world st Hpl Hk),
          (timer_in_world w pr empty_world st Hpl).
  change (TimerFire (pr_timer pr))
    with (probe_event (pr_image pr) (pr_timer pr) Timeout).
  rewrite (dispatch_probe w pr empty_world st Timeout Hpl).
  destruct pevs as [|[] [|[] [|[] ?]]]; cbn in Hpr; try discriminate;
    injection Hpr as <- <-; cbn;
    rewrite ?decide_True by reflexivity; cbn;
    repeat split; intros; simplify_eq; eauto; try congruence; try lia.
Qed.

(** C5. A [preloadImage] probe is decided by its first event.  If the image
    loads first, the promise is fulfilled with the URL that was passed; if
    the image fails first or the timer fires first, it is rejected, with an
    error whose message ends in the URL and tells the two reasons apart.
    Whatever follows leaves the promise as it is. *)
Theorem preloadImage_result
    (url : string) (timeout : option Z) (w : World)
    (pe : ProbeEvent) (rest : list ProbeEvent)
    (steps : list (Event * list Obs)) (w' : World) :
  let i := length (images w) in
  let t := length (timers w) in
  let p := length (promises w) in
  let outcome :=
    match pe with
    | LoadOk => Fulfilled url
    | LoadErr => Rejected (MkError ("Failed to load image: " +:+ url))
    | Timeout => Rejected (MkError ("Image load timeout: " +:+ url))
    end in
  run (map (probe_event i t) (pe :: rest)) (world_of (preloadImage url timeout w))
  = Some (steps, w') ->
  promises w' !! p = Some outcome
  /\ settlements p (observations steps) = [outcome]
  /\ (forall u1 u2, "Failed to load image: " +:+ u1 <> "Image load timeout: " +:+ u2).
Proof.
  intros i t p outcome Hrun.
  change (world_of (preloadImage url timeout w))
    with (world_after (OpPreload timeout) url w) in Hrun.
  subst i t. rewrite run_after in Hrun.
  set (pr := probe_of (OpPreload timeout) url w) in *.
  assert (Hpl : placed pr w) by apply placed_probe_of.
  assert (Hk : pr_kind pr = KPreload) by reflexivity.
  destruct (probe_run pr (pe :: rest) init_st) as [[steps0 st]|] eqn:Hpr; [|discriminate].
  cbn [lift_run] in Hrun. injection Hrun as <- <-.
  change p with (pr_promise pr).
  rewrite (promise_in_world w pr empty_world st Hpl Hk).
  split; [|split; [|intros u1 u2; cbn; discriminate]];
    subst outcome; destruct pe, rest as [|[] [|[] ?]]; cbn in Hpr; try discriminate;
    injection Hpr as <- <-; cbn; rewrite ?decide_True by reflexivity; reflexivity.
Qed.

(** ** Two probes for the same URL *)

Lemma probe_run_app pr a b : forall st,
  probe_run pr (a ++ b) st
  = match probe_run pr a st with
    | Some (s1, st1) =>
        match probe_run pr b st1 with
        | Some (s2, st2) => Some (s1 ++ s2, st2)
        | None => None
        end
    | None => None
    end.
Proof.
  induction a as [|pe a IH]; intros st; cbn [app probe_run].
  - by destruct (probe_run pr b st) as [[s2 st2]|].
  - destruct (probe_step pr pe st) as [[out st1]|]; [|reflexivity].
    rewrite IH. destruct (probe_run pr a st1) as [[s1 st1']|]; [|reflexivity].
    by destruct (probe_run pr b st1') as [[s2 st2]|].
Qed.

(** Two probes of the same kind for the same URL take the same steps,
    wherever they were allocated. *)
Lemma probe_step_anon pr pr' pe st :
  pr_kind pr = pr_kind pr' -> pr_url pr = pr_url pr' ->
  match probe_step pr pe st, probe_step pr' pe st with
  | Some (out, st1), Some (out', st1') => map anon_obs out = map anon_obs out' /\ st1 = st1'
  | None, None => True
  | _, _ => False
  end.
Proof.
  destruct pr as [k url d i t p], pr' as [k' url' d' i' t' p']. cbn. intros <- <-.
  destruct st as [ls ts ps].
  destruct k, pe, ls, ts, ps; cbn; auto.
Qed.

Lemma probe_run_anon pr pr' pevs : forall st,
  pr_kind pr = pr_kind pr' -> pr_url pr = pr_url pr' ->
  match probe_run pr pevs st, probe_run pr' pevs st with
  | Some (s, st1), Some (s', st1') => told s = told s' /\ st1 = st1'
  | None, None => True
  | _, _ => False
  end.
Proof.
  induction pevs as [|pe pevs IH]; intros st Hk Hu; cbn [probe_run]; [by split|].
  pose proof (probe_step_anon pr pr' pe st Hk Hu) as Hstep.
  destruct (probe_step pr pe st) as [[out st1]|], (probe_step pr' pe st) as [[out' st1']|];
    try done.
  destruct Hstep as [Hout <-]. specialize (IH st1 Hk Hu).
  destruct (probe_run pr pevs st1) as [[s st2]|], (probe_run pr' pevs st1) as [[s' st2']|];
    try done.
  destruct IH as [Hs <-]. split; [|reflexivity].
  unfold told in *. cbn [map snd]. by rewrite Hout, Hs.
Qed.

Lemma probe_state_in_world op url w0 B X st :
  let pr := probe_of op url w0 in
  placed pr B ->
  probe_state op (pr_image pr) (pr_timer pr) (pr_promise pr) (in_world B pr X st)
  = (Some (st_load st), Some (st_timer st),
     match op with OpPreload _ => Some (st_promise st) | OpCheck _ _ => None end).
Proof.
  intros pr Hpl. unfold probe_state.
  rewrite (image_in_world B pr X st Hpl), (timer_in_world B pr X st Hpl).
  destruct op; [reflexivity|].
  by rewrite (promise_in_world B pr X st Hpl eq_refl).
Qed.

(** C9. Two calls, each of either operation, with the same URL; the second
    call may come at any time, also after the first probe has delivered its
    result.  The second call allocates an image and a timer of its own and
    leaves those of the first probe as they are.  However the events of the
    two probes are interleaved afterwards,

    - the first probe takes the steps, with the same observations, and ends
      with the same image, timer and promise, as in the page where the second
      call was never made;
    - the second call and the second probe say and do what a call and a
      probe for this URL say and do on the same events in any other page
      [wb], the empty page included: the same output of the call, the same
      observations step by step and the same final load state, timer state
      and promise state.

    So nothing is kept from one probe for another, not even its result. *)
Theorem same_url_probes_are_isolated
    (url : string) (op1 op2 : Op) (w : World)
    (pre : list ProbeEvent) (s_pre : list (Event * list Obs)) (w1' : World)
    (evs : list (bool * ProbeEvent)) (steps : list (Event * list Obs)) (w' : World) :
  let w1 := world_after op1 url w in
  let i1 := length (images w) in
  let t1 := length (timers w) in
  let p1 := length (promises w) in
  run (map (probe_event i1 t1) pre) w1 = Some (s_pre, w1') ->
  let w2 := world_after op2 url w1' in
  let i2 := length (images w1') in
  let t2 := length (timers w1') in
  let p2 := length (promises w1') in
  run (map (pick i1 t1 i2 t2) evs) w2 = Some (steps, w') ->
  (i1 <> i2 /\ t1 <> t2)
  /\ view op1 i1 t1 p1 w2 = view op1 i1 t1 p1 w1'
  /\ (exists w1'',
        run (map (probe_event i1 t1) (pre ++ events_of false evs)) w1
        = Some (s_pre ++ steps_of i1 t1 steps, w1'')
        /\ view op1 i1 t1 p1 w' = view op1 i1 t1 p1 w1'')
  /\ (forall wb : World,
        exists sb wb',
          run (map (probe_event (length (images wb)) (length (timers wb)))
                   (events_of true evs))
              (world_after op2 url wb) = Some (sb, wb')
          /\ output_after op2 url wb = output_after op2 url w1'
          /\ told sb = told (steps_of i2 t2 steps)
          /\ probe_state op2 (length (images wb)) (length (timers wb))
               (length (promises wb)) wb'
             = probe_state op2 i2 t2 p2 w').
Proof.
  intros w1 i1 t1 p1 Hpre. subst w1 i1 t1. rewrite run_after in Hpre.
  set (pr1 := probe_of op1 url w) in *.
  assert (Hpl1 : placed pr1 w) by apply placed_probe_of.
  destruct (probe_run pr1 pre init_st) as [[s0 st1]|] eqn:Hrun0; [|discriminate].
  cbn [lift_run] in Hpre. injection Hpre as -> <-.
  intros w2 i2 t2 p2 Hrun.
  set (pr2 := probe_of op2 url (in_world w pr1 empty_world st1)) in *.
  assert (Hflat : forall st, in_world w pr1 empty_world st = extend w (probe_ext pr1 st)).
  { intros st. unfold in_world. apply extend_empty_r. }
  assert (Hpl2 : forall st, placed pr2 (extend w (probe_ext pr1 st))).
  { intros st. apply (probe_ext_placed pr1 pr2 w st1 st).
    rewrite <- Hflat. apply placed_probe_of. }
  assert (Hw2 : w2 = both w pr1 pr2 st1 init_st).
  { subst w2. rewrite world_after_eq. unfold in_world at 1, both.
    rewrite extend_empty_r. fold pr2. f_equal. apply Hflat. }
  assert (Hboth1 : forall sa sb,
             view op1 (pr_image pr1) (pr_timer pr1) p1 (both w pr1 pr2 sa sb)
             = probe_view pr1 sa).
  { intros sa sb. exact (view_in_world op1 url w w (probe_ext pr2 sb) sa Hpl1). }
  assert (Halone1 : forall sa,
             view op1 (pr_image pr1) (pr_timer pr1) p1 (in_world w pr1 empty_world sa)
             = probe_view pr1 sa).
  { intros sa. exact (view_in_world op1 url w w empty_world sa Hpl1). }
  change (length (images w)) with (pr_image pr1) in *.
  change (length (timers w)) with (pr_timer pr1) in *.
  split; [exact (two_probes_apart w pr1 pr2 Hpl1 Hpl2)|].
  split; [by rewrite Hw2, Hboth1, Halone1|].
  rewrite Hw2 in Hrun.
  destruct (interleave w pr1 pr2 Hpl1 Hpl2 evs st1 init_st steps w' Hrun)
    as (st1' & st2' & Hrun1 & Hrun2 & ->).
  split.
  - exists (in_world w pr1 empty_world st1'). split; [|by rewrite Hboth1, Halone1].
    rewrite (run_after op1 url w). fold pr1.
    rewrite probe_run_app, Hrun0, Hrun1. reflexivity.
  - intros wb. set (prb := probe_of op2 url wb).
    pose proof (probe_run_anon prb pr2 (events_of true evs) init_st eq_refl eq_refl) as Hanon.
    rewrite Hrun2 in Hanon.
    destruct (probe_run prb (events_of true evs) init_st) as [[sb stb]|] eqn:Hrunb; [|done].
    destruct Hanon as [Htold ->].
    exists sb, (in_world wb prb empty_world st2'). split; [|split; [|split]].
    + rewrite (run_after op2 url wb). fold prb. by rewrite Hrunb.
    + unfold output_after. destruct op2;
        by rewrite ?checkImageExists_eq, ?preloadImage_eq.
    + exact Htold.
    + etransitivity;
        [exact (probe_state_in_world op2 url wb wb empty_world st2'
                  (placed_probe_of op2 url wb))|].
      rewrite <- (extend_empty_r (both w pr1 pr2 st1' st2')).
      symmetry.
      exact (probe_state_in_world op2 url (in_world w pr1 empty_world st1)
               (extend w (probe_ext pr1 st1')) empty_world st2' (Hpl2 st1')).
Qed.

(** ** Runs that satisfy the hypotheses above *)

Lemma preloadImage_settles_exactly_once_witness :
  exists steps w',
    run (map (probe_event 0 0) [LoadOk])
        (world_of (preloadImage "https://valid.example/img.png" (Some 100%Z) empty_world))
    = Some (steps, w')
    /\ length (settlements 0 (observations steps)) = 1
    /\ dispatch (TimerFire 0) w' = None.
Proof.
  eexists _, _. split; [reflexivity|].
  destruct (preloadImage_settles_exactly_once
              "https://valid.example/img.png" (Some 100%Z) empty_world [LoadOk] _ _ eq_refl)
    as (_ & _ & Honce & _ & Hquiet & _).
  split; [apply Honce; reflexivity | apply Hquiet; discriminate].
Defined.

Lemma preloadImage_result_witness :
  exists steps w',
    run (map (probe_event 0 0) [Timeout; LoadOk])
        (world_of (preloadImage "https://slow.example/big.png" (Some 100%Z) empty_world))
    = Some (steps, w')
    /\ promises w' !! 0
       = Some (Rejected (MkError "Image load timeout: https://slow.example/big.png")).
Proof.
  eexists _, _. split; [reflexivity|].
  exact (proj1 (preloadImage_result
                  "https://slow.example/big.png" (Some 100%Z) empty_world
                  Timeout [LoadOk] _ _ eq_refl)).
Defined.

Lemma same_url_probes_are_isolated_witness :
  let url := "https://valid.example/img.png" in
  let op := OpCheck (MkCallback 0) None in
  let w1 := world_after op url empty_world in
  exists s_pre w1' steps w',
    run (map (probe_event 0 0) [LoadOk]) w1 = Some (s_pre, w1')
    /\ run (map (pick 0 0 1 1) [(true, LoadErr)]) (world_after op url w1') = Some (steps, w')
    /\ told s_pre = [[CallbackCall (MkCallback 0) true]]
    /\ told (steps_of 1 1 steps)
       = [[ConsoleWarn "Image failed to load: https://valid.example/img.png";
           CallbackCall (MkCallback 0) false]]
    /\ exists sb wb',
         run (map (probe_event 0 0) (events_of true [(true, LoadErr)]))
             (world_after op url empty_world) = Some (sb, wb')
         /\ output_after op url empty_world = output_after op url w1'
         /\ told sb = told (steps_of 1 1 steps)
         /\ probe_state op 0 0 0 wb' = probe_state op 1 1 0 w'.
Proof.
  intros url op w1. eexists _, _, _, _.
  split; [reflexivity|]. split; [reflexivity|]. split; [reflexivity|].
  split; [reflexivity|].
  exact (proj2 (proj2 (proj2 (same_url_probes_are_isolated
                                url op op empty_world [LoadOk] _ _ [(true, LoadErr)] _ _
                                eq_refl eq_refl)))
           empty_world).
Defined.

(** * Beyond the claims *)

(** ** Events in an arbitrary world *)

Lemma evolves_refl w : evolves w w.
Proof. repeat split; auto. Qed.

Lemma evolves_trans w1 w2 w3 : evolves w1 w2 -> evolves w2 w3 -> evolves w1 w3.
Proof.
  intros (A1 & A2 & A3 & A4 & A5 & A6) (B1 & B2 & B3 & B4 & B5 & B6).
  repeat split; try congruence; eauto.
Qed.

Lemma timer_active_insert t t' tm (l : list Timer) im pr :
  timer_active t' (MkWorld im (<[t := tm]> l) pr)
  = if decide (t = t' /\ t < length l)
    then match t_state tm with Armed => true | _ => false end
    else timer_active t' (MkWorld im l pr).
Proof. unfold timer_active. cbn -[lookup]. rewrite list_lookup_insert. by case_decide. Qed.

Lemma image_loading_insert i i' im' (l : list Image) tm pr :
  image_loading i' (MkWorld (<[i := im']> l) tm pr)
  = if decide (i = i' /\ i < length l)
    then match load_state im' with Loading => true | _ => false end
    else image_loading i' (MkWorld l tm pr).
Proof. unfold image_loading. cbn -[lookup]. rewrite list_lookup_insert. by case_decide. Qed.

Lemma fmap_insert_same {A B} (f : A -> B) (l : list A) i x y :
  l !! i = Some x -> f y = f x -> f <$> <[i := y]> l = f <$> l.
Proof.
  intros Hl Hf. rewrite list_fmap_insert, Hf. apply list_insert_id.
  by rewrite list_lookup_fmap, Hl.
Qed.

Lemma clearTimeout_facts t w :
  exists w',
    clearTimeout t w = (Normal tt, w', [])
    /\ evolves w w'
    /\ images w' = images w /\ promises w' = promises w
    /\ (forall t', t' <> t -> timers w' !! t' = timers w !! t')
    /\ timer_active t w' = false.
Proof.
  destruct w as [im tms pr]. unfold clearTimeout. cbn -[lookup insert].
  destruct (tms !! t) as [tm|] eqn:Ht.
  - destruct (t_state tm) eqn:Hst.
    + eexists. split; [reflexivity|]. unfold with_timers. cbn -[lookup insert].
      split; [|split; [reflexivity|split; [reflexivity|split]]].
      * repeat split; auto.
        -- by apply fmap_insert_same with tm.
        -- intros t'. rewrite timer_active_insert. cbn. by case_decide.
      * intros t' Hne. by apply list_lookup_insert_ne.
      * rewrite timer_active_insert. cbn.
        rewrite decide_True; [done|]. split; [done|]. by eapply lookup_lt_Some.
    + eexists. split; [reflexivity|]. split; [apply evolves_refl|].
      repeat split; auto. unfold timer_active. cbn -[lookup]. by rewrite Ht, Hst.
    + eexists. split; [reflexivity|]. split; [apply evolves_refl|].
      repeat split; auto. unfold timer_active. cbn -[lookup]. by rewrite Ht, Hst.
  - eexists. split; [reflexivity|]. split; [apply evolves_refl|].
    repeat split; auto. unfold timer_active. cbn -[lookup]. by rewrite Ht.
Qed.

Lemma settle_facts p st w :
  exists w' out,
    settle p st w = (Normal tt, w', out)
    /\ evolves w w'
    /\ images w' = images w /\ timers w' = timers w
    /\ (forall q, q <> p -> promises w' !! q = promises w !! q)
    /\ (forall q s, promises w !! q = Some s -> s <> Pending -> settlements q out = []).
Proof.
  destruct w as [im tms pr]. unfold settle. cbn -[lookup insert].
  destruct (pr !! p) as [[| |]|] eqn:Hp;
    try (eexists _, _; split; [reflexivity|]; split; [apply evolves_refl|];
         repeat split; auto).
  eexists _, _. split; [reflexivity|]. unfold with_promises. cbn -[lookup insert].
  split; [|split; [reflexivity|split; [reflexivity|split]]].
  - repeat split; auto.
    + apply length_insert.
    + intros q s Hq Hs. cbn -[lookup insert] in *.
      rewrite list_lookup_insert_ne; [done|]. congruence.
  - intros q Hne. by apply list_lookup_insert_ne.
  - intros q s Hq Hs. cbn. destruct (decide (p = q)); [congruence | done].
Qed.

Lemma timer_active_ext t w w' : timers w' = timers w -> timer_active t w' = timer_active t w.
Proof. unfold timer_active. by intros ->. Qed.

Lemma run_handler_facts h w :
  exists w' out,
    run_handler h w = (Normal tt, w', out)
    /\ evolves w w'
    /\ images w' = images w
    /\ (forall t, handler_timer h <> Some t -> timers w' !! t = timers w !! t)
    /\ (forall p, handler_promise h <> Some p -> promises w' !! p = promises w !! p)
    /\ (forall q s, promises w !! q = Some s -> s <> Pending -> settlements q out = [])
    /\ (forall t, handler_timer h = Some t -> timer_active t w' = false).
Proof.
  destruct h as [url cb|t cb|t url cb|url p|t url p|t url p];
    unfold run_handler, resolve, reject, mbind, JS_bind, js_bind, console_warn, call.
  - eexists _, _. split; [reflexivity|]. split; [apply evolves_refl|].
    split; [|split; [|split; [|split]]]; auto; discriminate.
  - destruct (clearTimeout_facts t w) as (w1 & -> & Hev & Him & Hpr & Hfr & Hoff).
    eexists _, _. split; [reflexivity|]. split; [exact Hev|].
    split; [|split; [|split; [|split]]]; auto.
    + intros t' Hne. apply Hfr. cbn in Hne. congruence.
    + intros p _. by rewrite Hpr.
    + intros t' [= <-]. exact Hoff.
  - destruct (clearTimeout_facts t w) as (w1 & -> & Hev & Him & Hpr & Hfr & Hoff).
    eexists _, _. split; [reflexivity|]. split; [exact Hev|].
    split; [|split; [|split; [|split]]]; auto.
    + intros t' Hne. apply Hfr. cbn in Hne. congruence.
    + intros p _. by rewrite Hpr.
    + intros t' [= <-]. exact Hoff.
  - destruct (settle_facts p (Rejected (MkError ("Image load timeout: " +:+ url))) w)
      as (w2 & out & -> & Hev & Him & Htm & Hfr & Hq).
    eexists _, _. split; [reflexivity|]. split; [exact Hev|].
    split; [|split; [|split; [|split]]].
    + exact Him.
    + intros t _. by rewrite Htm.
    + intros q Hne. apply Hfr. cbn in Hne. congruence.
    + intros q s Hs Hnp. cbn. by eapply Hq.
    + discriminate.
  - destruct (clearTimeout_facts t w) as (w1 & -> & Hev & Him & Hpr & Hfr & Hoff).
    destruct (settle_facts p (Fulfilled url) w1)
      as (w2 & out & -> & Hev2 & Him2 & Htm2 & Hfr2 & Hq).
    eexists _, _. split; [reflexivity|]. split; [by eapply evolves_trans|].
    split; [|split; [|split; [|split]]].
    + congruence.
    + intros t' Hne. rewrite Htm2. apply Hfr. cbn in Hne. congruence.
    + intros q Hne. rewrite Hfr2, Hpr; [done|]. cbn in Hne. congruence.
    + intros q s Hs Hnp. cbn. eapply Hq; [|exact Hnp]. by rewrite Hpr.
    + intros t' [= <-]. by rewrite (timer_active_ext t w1 w2 Htm2).
  - destruct (clearTimeout_facts t w) as (w1 & -> & Hev & Him & Hpr & Hfr & Hoff).
    destruct (settle_facts p (Rejected (MkError ("Failed to load image: " +:+ url))) w1)
      as (w2 & out & -> & Hev2 & Him2 & Htm2 & Hfr2 & Hq).
    eexists _, _. split; [reflexivity|]. split; [by eapply evolves_trans|].
    split; [|split; [|split; [|split]]].
    + congruence.
    + intros t' Hne. rewrite Htm2. apply Hfr. cbn in Hne. congruence.
    + intros q Hne. rewrite Hfr2, Hpr; [done|]. cbn in Hne. congruence.
    + intros q s Hs Hnp. cbn. eapply Hq; [|exact Hnp]. by rewrite Hpr.
    + intros t' [= <-]. by rewrite (timer_active_ext t w1 w2 Htm2).
Qed.

Lemma mark_timer_facts t tm st w :
  timers w !! t = Some tm -> st <> Armed ->
  evolves w (mark_timer t tm st w) /\ timer_active t (mark_timer t tm st w) = false.
Proof.
  destruct w as [im tms pr]. cbn -[lookup]. intros Ht Hst.
  unfold mark_timer, with_timers. cbn -[lookup insert]. split.
  - repeat split; auto.
    + by apply fmap_insert_same with tm.
    + intros t'. rewrite timer_active_insert. cbn. case_decide; [by destruct st | done].
  - rewrite timer_active_insert. cbn.
    rewrite decide_True; [by destruct st|]. split; [done|]. by eapply lookup_lt_Some.
Qed.

Lemma mark_image_facts i im st w :
  images w !! i = Some im -> st <> Loading ->
  evolves w (mark_image i im st w) /\ image_loading i (mark_image i im st w) = false.
Proof.
  destruct w as [ims tms pr]. cbn -[lookup]. intros Hi Hst.
  unfold mark_image, with_images. cbn -[lookup insert]. split.
  - repeat split; auto.
    + by apply fmap_insert_same with im.
    + intros i'. rewrite image_loading_insert. cbn. case_decide; [by destruct st | done].
  - rewrite image_loading_insert. cbn.
    rewrite decide_True; [by destruct st|]. split; [done|]. by eapply lookup_lt_Some.
Qed.

Lemma fire_facts h w :
  evolves w (fire h w).2
  /\ images (fire h w).2 = images w
  /\ (forall q s, promises w !! q = Some s -> s <> Pending -> settlements q (fire h w).1 = []).
Proof.
  destruct h as [h|]; cbn.
  - destruct (run_handler_facts h w) as (w' & out & -> & Hev & Him & _ & _ & Hq & _).
    cbn. auto.
  - split; [apply evolves_refl|]. auto.
Qed.

Lemma image_loading_ext i w w' : images w' = images w -> image_loading i w' = image_loading i w.
Proof. unfold image_loading. by intros ->. Qed.

Lemma dispatch_facts e w out w' :
  dispatch e w = Some (out, w') ->
  evolves w w'
  /\ (forall q s, promises w !! q = Some s -> s <> Pending -> settlements q out = [])
  /\ match e with
     | TimerFire t => timer_active t w = true /\ timer_active t w' = false
     | ImgLoad i | ImgError i => image_loading i w = true /\ image_loading i w' = false
     end.
Proof.
  destruct e as [t|i|i]; unfold dispatch.
  - destruct (timers w !! t) as [tm|] eqn:Ht; [|discriminate].
    destruct (t_state tm) eqn:Hst; try discriminate.
    destruct (mark_timer_facts t tm Fired w Ht) as [Hev Hoff]; [discriminate|].
    destruct (fire_facts (Some (t_handler tm)) (mark_timer t tm Fired w)) as (Hev2 & _ & Hq).
    intros Hf. apply (inj Some) in Hf. rewrite Hf in Hev2, Hq. cbn [fst snd] in *. split; [by eapply evolves_trans|]. split.
    + intros q s Hs Hnp. eapply Hq; [|exact Hnp].
      destruct Hev as (_ & _ & _ & _ & _ & Hfin). by apply Hfin.
    + split; [unfold timer_active; by rewrite Ht, Hst|].
      destruct Hev2 as (_ & _ & _ & Hmono & _). by apply Hmono.
  - destruct (images w !! i) as [im|] eqn:Hi; [|discriminate].
    destruct (load_state im) eqn:Hst; try discriminate.
    destruct (mark_image_facts i im Loaded w Hi) as [Hev Hoff]; [discriminate|].
    destruct (fire_facts (onload im) (mark_image i im Loaded w)) as (Hev2 & Him & Hq).
    intros Hf. apply (inj Some) in Hf. rewrite Hf in Hev2, Him, Hq. cbn [fst snd] in *. split; [by eapply evolves_trans|]. split.
    + intros q s Hs Hnp. eapply Hq; [|exact Hnp].
      destruct Hev as (_ & _ & _ & _ & _ & Hfin). by apply Hfin.
    + split; [unfold image_loading; by rewrite Hi, Hst|].
      by rewrite (image_loading_ext i _ _ Him).
  - destruct (images w !! i) as [im|] eqn:Hi; [|discriminate].
    destruct (load_state im) eqn:Hst; try discriminate.
    destruct (mark_image_facts i im Broken w Hi) as [Hev Hoff]; [discriminate|].
    destruct (fire_facts (onerror im) (mark_image i im Broken w)) as (Hev2 & Him & Hq).
    intros Hf. apply (inj Some) in Hf. rewrite Hf in Hev2, Him, Hq. cbn [fst snd] in *. split; [by eapply evolves_trans|]. split.
    + intros q s Hs Hnp. eapply Hq; [|exact Hnp].
      destruct Hev as (_ & _ & _ & _ & _ & Hfin). by apply Hfin.
    + split; [unfold image_loading; by rewrite Hi, Hst|].
      by rewrite (image_loading_ext i _ _ Him).
Qed.

Lemma run_cons e evs w steps w' :
  run (e :: evs) w = Some (steps, w') ->
  exists out w1 steps',
    dispatch e w = Some (out, w1) /\ run evs w1 = Some (steps', w')
    /\ steps = (e, out) :: steps'.
Proof.
  cbn [run]. destruct (dispatch e w) as [[out w1]|]; [|discriminate].
  destruct (run evs w1) as [[steps' w'']|] eqn:Hr; [|discriminate].
  intros [= <- <-]. exists out, w1, steps'. auto.
Qed.


Lemma settlements_app p o1 o2 :
  settlements p (o1 ++ o2) = settlements p o1 ++ settlements p o2.
Proof.
  induction o1 as [|[msg|cb arg|q st] o1 IH]; cbn; auto.
  destruct (decide (q = p)); cbn; congruence.
Qed.

Lemma run_inactive_timer t evs : forall w steps w',
  run evs w = Some (steps, w') -> timer_active t w = false -> timer_events t evs = 0.
Proof.
  induction evs as [|e evs IH]; intros w steps w' Hrun Hoff; [reflexivity|].
  destruct (run_cons _ _ _ _ _ Hrun) as (out & w1 & steps' & Hd & Hr & ->).
  destruct (dispatch_facts _ _ _ _ Hd) as ((_ & _ & _ & Hmono & _) & _ & He).
  unfold timer_events in *. cbn [List.filter].
  destruct e as [t'|i|i]; try (eapply IH; eauto).
  destruct (Nat.eqb_spec t' t) as [->|Hne]; [|eapply IH; eauto].
  destruct He as [Hon _]. congruence.
Qed.

Lemma run_idle_image i evs : forall w steps w',
  run evs w = Some (steps, w') -> image_loading i w = false -> image_events i evs = 0.
Proof.
  induction evs as [|e evs IH]; intros w steps w' Hrun Hoff; [reflexivity|].
  destruct (run_cons _ _ _ _ _ Hrun) as (out & w1 & steps' & Hd & Hr & ->).
  destruct (dispatch_facts _ _ _ _ Hd) as ((_ & _ & _ & _ & Hmono & _) & _ & He).
  unfold image_events in *. cbn [List.filter].
  destruct e as [t|i'|i']; try (eapply IH; eauto);
    (destruct (Nat.eqb_spec i' i) as [->|Hne]; [|eapply IH; eauto]);
    destruct He as [Hon _]; congruence.
Qed.

(** X4. The statements of each of the six closures, run in any state of the
    page, create no object, touch no image, and write to no timer and no
    promise other than the one the closure captured.  The three closures of
    [preloadImage], which call no caller code, complete normally.  (What the
    caller's callback does once it is invoked is the caller's code, not the
    closure's: nothing is said about it here.) *)
Theorem closure_footprint (h : Handler) (w : World) :
  let w' := world_of (run_handler h w) in
  images w' = images w
  /\ length (timers w') = length (timers w)
  /\ length (promises w') = length (promises w)
  /\ (forall t, handler_timer h <> Some t -> timers w' !! t = timers w !! t)
  /\ (forall p, handler_promise h <> Some p -> promises w' !! p = promises w !! p)
  /\ (forall p, handler_promise h = Some p -> result_of (run_handler h w) = Normal tt).
Proof.
  destruct (run_handler_facts h w)
    as (w' & out & Heq & (_ & Htc & Hlen & _) & Him & Hft & Hfp & _).
  rewrite Heq. unfold world_of, result_of. cbn [fst snd].
  repeat split; auto.
  rewrite <- (length_fmap timer_config (timers w')), Htc. apply length_fmap.
Qed.


(** X6. A settled promise is final in every world: whatever events follow,
    of this probe or of any other, its state stays the same and no further
    settlement of it is reported. *)
Theorem settled_promise_is_final
    (evs : list Event) (w : World) (steps : list (Event * list Obs)) (w' : World)
    (p : nat) (st : PromiseState) :
  run evs w = Some (steps, w') ->
  promises w !! p = Some st ->
  st <> Pending ->
  promises w' !! p = Some st /\ settlements p (observations steps) = [].
Proof.
  revert w steps w'. induction evs as [|e evs IH]; intros w steps w' Hrun Hp Hst.
  - injection Hrun as <- <-. auto.
  - destruct (run_cons _ _ _ _ _ Hrun) as (out & w1 & steps' & Hd & Hr & ->).
    destruct (dispatch_facts _ _ _ _ Hd) as ((_ & _ & _ & _ & _ & Hfin) & Hq & _).
    destruct (IH _ _ _ Hr (Hfin _ _ Hp Hst) Hst) as [Hp' Hs'].
    split; [exact Hp'|].
    unfold observations in *. cbn [map concat snd]. rewrite settlements_app, Hs'.
    by rewrite (Hq _ _ Hp Hst).
Qed.

(** X7. Nothing is retried: in every run, from any world, each timer fires
    at most once and each image delivers at most one [load] or [error]
    event; a timer that is not active and an image that is not loading take
    no part in the run at all. *)
Theorem no_event_twice
    (evs : list Event) (w : World) (steps : list (Event * list Obs)) (w' : World) :
  run evs w = Some (steps, w') ->
  forall n,
    timer_events n evs <= 1
    /\ image_events n evs <= 1
    /\ (timer_active n w = false -> timer_events n evs = 0)
    /\ (image_loading n w = false -> image_events n evs = 0).
Proof.
  intros Hrun n.
  split; [|split; [|split; [by apply (run_inactive_timer n evs w steps w')
                           | by apply (run_idle_image n evs w steps w')]]].
  - revert w steps w' Hrun. induction evs as [|e evs IH]; intros w steps w' Hrun.
    + cbn. lia.
    + destruct (run_cons _ _ _ _ _ Hrun) as (out & w1 & steps' & Hd & Hr & ->).
      destruct (dispatch_facts _ _ _ _ Hd) as (_ & _ & He).
      pose proof (IH _ _ _ Hr) as IH'.
      unfold timer_events in *. cbn [List.filter].
      destruct e as [t|i|i]; try exact IH'.
      destruct (Nat.eqb_spec t n) as [->|Hne]; [|exact IH'].
      destruct He as [_ Hoff].
      pose proof (run_inactive_timer n evs w1 steps' w' Hr Hoff) as H0.
      unfold timer_events in H0. cbn [length]. lia.
  - revert w steps w' Hrun. induction evs as [|e evs IH]; intros w steps w' Hrun.
    + cbn. lia.
    + destruct (run_cons _ _ _ _ _ Hrun) as (out & w1 & steps' & Hd & Hr & ->).
      destruct (dispatch_facts _ _ _ _ Hd) as (_ & _ & He).
      pose proof (IH _ _ _ Hr) as IH'.
      unfold image_events in *. cbn [List.filter].
      destruct e as [t|i|i]; try exact IH';
        (destruct (Nat.eqb_spec i n) as [->|Hne]; [|exact IH']);
        destruct He as [_ Hoff];
        pose proof (run_idle_image n evs w1 steps' w' Hr Hoff) as H0;
        unfold image_events in H0; cbn [length]; lia.
Qed.

(** ** More on a single probe *)

(** X3. A call only allocates: it appends one image and one armed timer to
    the page, [preloadImage] also one pending promise and [checkImageExists]
    no promise at all, and every object that existed before is unchanged. *)
Theorem calls_only_allocate (op : Op) (url : string) (w : World) :
  let w' := world_after op url w in
  (exists im, images w' = images w ++ [im] /\ load_state im = Loading)
  /\ (exists tm, timers w' = timers w ++ [tm] /\ t_state tm = Armed)
  /\ promises w' = promises w ++ match op with OpPreload _ => [Pending] | OpCheck _ _ => [] end
  /\ (forall n, n < length (images w) -> images w' !! n = images w !! n)
  /\ (forall n, n < length (timers w) -> timers w' !! n = timers w !! n)
  /\ (forall n, n < length (promises w) -> promises w' !! n = promises w !! n).
Proof.
  intros w'. subst w'. rewrite world_after_eq. unfold in_world. rewrite extend_empty_r.
  unfold extend, probe_ext, probe_of.
  destruct op as [cb timeout|timeout]; cbn -[lookup];
    (split; [eexists; split; reflexivity|]);
    (split; [eexists; split; reflexivity|]);
    (split; [reflexivity|]);
    repeat split; intros n Hn; by apply lookup_app_l.
Qed.

(** X2. In every run of a [checkImageExists] probe each event invokes the
    callback exactly once, so the callback has been invoked as often as
    events were delivered: at most twice, at least once when the timer is no
    longer pending, first with the answer of the first event, and twice only
    when the timer fired before the image event. *)
Theorem checkImageExists_answers
    (url : string) (cb : Callback) (timeout : option Z) (w : World)
    (pevs : list ProbeEvent) (steps : list (Event * list Obs)) (w' : World) :
  run (map (probe_event (length (images w)) (length (timers w))) pevs)
      (world_of (checkImageExists url cb timeout w)) = Some (steps, w') ->
  length (calls_of cb (observations steps)) = length pevs
  /\ length pevs <= 2
  /\ (timer_active (length (timers w)) w' = false -> pevs <> [])
  /\ (forall pe rest, pevs = pe :: rest ->
      hd_error (calls_of cb (observations steps))
      = Some (match pe with LoadOk => true | _ => false end))
  /\ (length pevs = 2 -> exists late, pevs = [Timeout; late] /\ late <> Timeout).
Proof.
  intros Hrun.
  change (world_of (checkImageExists url cb timeout w))
    with (world_after (OpCheck cb timeout) url w) in Hrun.
  rewrite run_after in Hrun.
  set (pr := probe_of (OpCheck cb timeout) url w) in *.
  assert (Hpl : placed pr w) by apply placed_probe_of.
  destruct (probe_run pr pevs init_st) as [[steps0 st]|] eqn:Hpr; [|discriminate].
  cbn [lift_run] in Hrun. injection Hrun as <- <-.
  change (length (timers w)) with (pr_timer pr).
  rewrite (timer_active_in_world w pr empty_world st Hpl).
  destruct pevs as [|[] [|[] [|[] ?]]]; cbn in Hpr; try discriminate;
    injection Hpr as <- <-; cbn;
    destruct (decide (cb = cb)); try congruence; cbn;
    repeat split; intros; simplify_eq; eauto; try lia; try congruence.
Qed.

(** The six runs a fresh probe can make, with where they leave the image
    and the timer. *)
Lemma probe_run_shape pr pevs steps st :
  probe_run pr pevs init_st = Some (steps, st) ->
  (pevs = [] /\ st_load st = Loading /\ st_timer st = Armed)
  \/ (pevs = [Timeout] /\ st_load st = Loading /\ st_timer st = Fired)
  \/ (pevs = [LoadOk] /\ st_load st = Loaded /\ st_timer st = Cleared)
  \/ (pevs = [LoadErr] /\ st_load st = Broken /\ st_timer st = Cleared)
  \/ (pevs = [Timeout; LoadOk] /\ st_load st = Loaded /\ st_timer st = Fired)
  \/ (pevs = [Timeout; LoadErr] /\ st_load st = Broken /\ st_timer st = Fired).
Proof.
  destruct pr as [[cb|] url d i t p]; intros Hpr;
    destruct pevs as [|[] [|[] [|[] ?]]]; cbn in Hpr; try discriminate;
    injection Hpr as <- <-; cbn; tauto.
Qed.

(** X8. A probe of either operation is short-lived: no run has more than two
    events; once its image event was delivered, and at the latest after two
    events, the timer is inactive and none of the probe's events can be
    dispatched any more; after the timeout alone, the image events are still
    to come. *)
Theorem probe_lifetime
    (op : Op) (url : string) (w : World)
    (pevs : list ProbeEvent) (steps : list (Event * list Obs)) (w' : World) :
  let i := length (images w) in
  let t := length (timers w) in
  run (map (probe_event i t) pevs) (world_after op url w) = Some (steps, w') ->
  length pevs <= 2
  /\ ((exists pe, pe <> Timeout /\ pe ∈ pevs) ->
      timer_active t w' = false /\ forall pe, dispatch (probe_event i t pe) w' = None)
  /\ (pevs = [Timeout] ->
      dispatch (TimerFire t) w' = None
      /\ is_Some (dispatch (ImgLoad i) w') /\ is_Some (dispatch (ImgError i) w')).
Proof.
  intros i t Hrun. subst i t. rewrite run_after in Hrun.
  set (pr := probe_of op url w) in *.
  assert (Hpl : placed pr w) by apply placed_probe_of.
  destruct (probe_run pr pevs init_st) as [[steps0 st]|] eqn:Hpr; [|discriminate].
  cbn [lift_run] in Hrun. injection Hrun as <- <-.
  change (length (timers w)) with (pr_timer pr).
  change (length (images w)) with (pr_image pr).
  rewrite (timer_active_in_world w pr empty_world st Hpl).
  change (TimerFire (pr_timer pr)) with (probe_event (pr_image pr) (pr_timer pr) Timeout).
  change (ImgLoad (pr_image pr)) with (probe_event (pr_image pr) (pr_timer pr) LoadOk).
  change (ImgError (pr_image pr)) with (probe_event (pr_image pr) (pr_timer pr) LoadErr).
  assert (Hd : forall pe, dispatch (probe_event (pr_image pr) (pr_timer pr) pe)
                            (in_world w pr empty_world st)
                          = lift_step w pr empty_world (probe_step pr pe st))
    by (intros pe; by apply dispatch_probe).
  rewrite !Hd. clear Hd.
  assert (Hinert : st_load st <> Loading -> st_timer st <> Armed ->
                   forall pe, dispatch (probe_event (pr_image pr) (pr_timer pr) pe)
                                (in_world w pr empty_world st) = None).
  { intros Hl Ht pe. rewrite dispatch_probe by exact Hpl. unfold probe_step.
    destruct pe, (st_load st) eqn:?, (st_timer st) eqn:?; cbn; congruence. }
  unfold probe_step.
  destruct (probe_run_shape pr pevs steps0 st Hpr)
    as [(-> & Hl & Ht)|[(-> & Hl & Ht)|[(-> & Hl & Ht)|[(-> & Hl & Ht)|
        [(-> & Hl & Ht)|(-> & Hl & Ht)]]]]];
    rewrite Hl, Ht in *; (split; [cbn; lia|]); split;
    try (intros; discriminate);
    try (intros (pe & Hne & Hin); exfalso;
         repeat (apply elem_of_cons in Hin as [->|Hin]; [congruence|]);
         by apply elem_of_nil in Hin);
    try (intros _; split; [reflexivity|]; apply Hinert; congruence).
  intros _. split; [reflexivity|].
  split; [destruct (load_step pr st) | destruct (error_step pr st)]; cbn; eauto.
Qed.

(** X9. For a probe of either operation, every event other than a successful
    load writes exactly one warning and a successful load writes none: no
    probe logs more than twice, a probe whose image loads first logs
    nothing, and every warning ends with the URL of the probe. *)
Theorem probe_warnings
    (op : Op) (url : string) (w : World)
    (pevs : list ProbeEvent) (steps : list (Event * list Obs)) (w' : World) :
  run (map (probe_event (length (images w)) (length (timers w))) pevs)
      (world_after op url w) = Some (steps, w') ->
  length (warnings (observations steps))
  = length (List.filter (fun pe => match pe with LoadOk => false | _ => true end) pevs)
  /\ length (warnings (observations steps)) <= 2
  /\ (forall rest, pevs = LoadOk :: rest -> warnings (observations steps) = [])
  /\ Forall (fun msg => exists lead, msg = lead +:+ url) (warnings (observations steps)).
Proof.
  intros Hrun. rewrite run_after in Hrun.
  destruct (probe_run (probe_of op url w) pevs init_st) as [[steps0 st]|] eqn:Hpr;
    [|discriminate].
  cbn [lift_run] in Hrun. injection Hrun as <- <-.
  destruct op as [cb timeout|timeout];
    destruct pevs as [|[] [|[] [|[] ?]]]; cbn in Hpr; try discriminate;
    injection Hpr as <- <-; cbn;
    (split; [reflexivity|]); (split; [lia|]); (split; [intros; by simplify_eq|]);
    repeat constructor; eexists; reflexivity.
Qed.

(** X10. When the promise of [preloadImage] ends up rejected, the message of
    the rejection reason is, character for character, the first warning the
    probe wrote, and it ends with the URL. *)
Theorem preloadImage_reason_is_logged
    (url : string) (timeout : option Z) (w : World)
    (pevs : list ProbeEvent) (steps : list (Event * list Obs)) (w' : World)
    (reason : JsError) :
  run (map (probe_event (length (images w)) (length (timers w))) pevs)
      (world_of (preloadImage url timeout w)) = Some (steps, w') ->
  promises w' !! length (promises w) = Some (Rejected reason) ->
  hd_error (warnings (observations steps)) = Some (message reason)
  /\ exists lead, message reason = lead +:+ url.
Proof.
  intros Hrun.
  change (world_of (preloadImage url timeout w))
    with (world_after (OpPreload timeout) url w) in Hrun.
  rewrite run_after in Hrun.
  set (pr := probe_of (OpPreload timeout) url w) in *.
  assert (Hpl : placed pr w) by apply placed_probe_of.
  destruct (probe_run pr pevs init_st) as [[steps0 st]|] eqn:Hpr; [|discriminate].
  cbn [lift_run] in Hrun. injection Hrun as <- <-.
  change (length (promises w)) with (pr_promise pr).
  rewrite (promise_in_world w pr empty_world st Hpl eq_refl).
  destruct pevs as [|[] [|[] [|[] ?]]]; cbn in Hpr; try discriminate;
    injection Hpr as <- <-; cbn; intros [= <-]; cbn;
    (split; [reflexivity|]); eexists; reflexivity.
Qed.

(** X11. The two operations are two faces of one mechanism: the same events
    are possible for a [checkImageExists] probe and for a [preloadImage]
    probe, they leave the image and the timer in the same state, they write
    the same number of warnings, and the promise tells what the first answer
    of the callback told: pending if there was none, fulfilled with the URL
    if it was [true], rejected if it was [false]. *)
Theorem operations_agree
    (url : string) (cb : Callback) (timeout : option Z) (w : World)
    (pevs : list ProbeEvent) :
  let i := length (images w) in
  let t := length (timers w) in
  let p := length (promises w) in
  match run (map (probe_event i t) pevs) (world_of (checkImageExists url cb timeout w)),
        run (map (probe_event i t) pevs) (world_of (preloadImage url timeout w)) with
  | Some (sc, wc), Some (sp, wp) =>
      match hd_error (calls_of cb (observations sc)) with
      | None => promises wp !! p = Some Pending
      | Some true => promises wp !! p = Some (Fulfilled url)
      | Some false => exists reason, promises wp !! p = Some (Rejected reason)
      end
      /\ t_state <$> timers wc !! t = t_state <$> timers wp !! t
      /\ load_state <$> images wc !! i = load_state <$> images wp !! i
      /\ length (warnings (observations sc)) = length (warnings (observations sp))
  | None, None => True
  | _, _ => False
  end.
Proof.
  intros i t p. subst i t p.
  change (world_of (checkImageExists url cb timeout w))
    with (world_after (OpCheck cb timeout) url w).
  change (world_of (preloadImage url timeout w))
    with (world_after (OpPreload timeout) url w).
  rewrite !run_after.
  set (prc := probe_of (OpCheck cb timeout) url w).
  set (prp := probe_of (OpPreload timeout) url w).
  assert (Hc : placed prc w) by apply placed_probe_of.
  assert (Hp : placed prp w) by apply placed_probe_of.
  pose proof (fun st => timer_in_world w prc empty_world st Hc) as Tc.
  pose proof (fun st => timer_in_world w prp empty_world st Hp) as Tp.
  pose proof (fun st => image_in_world w prc empty_world st Hc) as Ic.
  pose proof (fun st => image_in_world w prp empty_world st Hp) as Ip.
  pose proof (fun st => promise_in_world w prp empty_world st Hp eq_refl) as Pp.
  cbn [pr_timer pr_image pr_promise prc prp probe_of] in Tc, Tp, Ic, Ip, Pp.
  destruct pevs as [|[] [|[] [|[] ?]]]; cbn -[in_world lookup]; try exact I;
    rewrite ?Tc, ?Tp, ?Ic, ?Ip, ?Pp; cbn;
    (destruct (decide (cb = cb)); [|congruence]); cbn; eauto.
Qed.

(** ** Runs that satisfy the hypotheses of this part *)

Lemma checkImageExists_image_event_first_witness :
  exists steps w',
    LoadErr <> Timeout
    /\ run (map (probe_event 0 0) [LoadErr])
           (world_of (checkImageExists "https://missing.example/none.png"
                        (MkCallback 0) (Some 100%Z) empty_world))
       = Some (steps, w')
    /\ calls_of (MkCallback 0) (observations steps) = [false].
Proof.
  eexists _, _. split; [discriminate|]. split; [reflexivity|].
  exact (proj1 (proj2 (checkImageExists_image_event_first
                         "https://missing.example/none.png" (MkCallback 0) (Some 100%Z)
                         empty_world LoadErr [] _ _ ltac:(discriminate) eq_refl))).
Defined.

Lemma checkImageExists_answers_witness :
  exists steps w',
    run (map (probe_event 0 0) [Timeout; LoadOk])
        (world_of (checkImageExists "https://slow.example/big.png"
                     (MkCallback 0) (Some 100%Z) empty_world))
    = Some (steps, w')
    /\ length (calls_of (MkCallback 0) (observations steps)) = 2.
Proof.
  eexists _, _. split; [reflexivity|].
  exact (proj1 (checkImageExists_answers
                  "https://slow.example/big.png" (MkCallback 0) (Some 100%Z)
                  empty_world [Timeout; LoadOk] _ _ eq_refl)).
Defined.


Lemma settled_promise_is_final_witness :
  let w0 :=
    match run [TimerFire 0] (world_of (preloadImage "https://slow.example/big.png"
                                         (Some 100%Z) empty_world)) with
    | Some (_, w0) => w0
    | None => empty_world
    end in
  exists steps w',
    run [ImgLoad 0] w0 = Some (steps, w')
    /\ promises w0 !! 0
       = Some (Rejected (MkError "Image load timeout: https://slow.example/big.png"))
    /\ promises w' !! 0
       = Some (Rejected (MkError "Image load timeout: https://slow.example/big.png")).
Proof.
  intros w0. eexists _, _. split; [reflexivity|]. split; [reflexivity|].
  exact (proj1 (settled_promise_is_final [ImgLoad 0] w0 _ _ 0 _
                  eq_refl eq_refl ltac:(discriminate))).
Defined.

Lemma no_event_twice_witness :
  exists steps w',
    run [TimerFire 0; ImgLoad 0]
        (world_of (checkImageExists "https://slow.example/big.png"
                     (MkCallback 0) (Some 100%Z) empty_world))
    = Some (steps, w')
    /\ timer_events 0 [TimerFire 0; ImgLoad 0] <= 1.
Proof.
  eexists _, _. split; [reflexivity|].
  exact (proj1 (no_event_twice [TimerFire 0; ImgLoad 0]
                  (world_of (checkImageExists "https://slow.example/big.png"
                               (MkCallback 0) (Some 100%Z) empty_world))
                  _ _ eq_refl 0)).
Defined.

Lemma probe_lifetime_witness :
  exists steps w',
    run (map (probe_event 0 0) [LoadOk])
        (world_after (OpPreload None) "https://valid.example/img.png" empty_world)
    = Some (steps, w')
    /\ length [LoadOk] <= 2.
Proof.
  eexists _, _. split; [reflexivity|].
  exact (proj1 (probe_lifetime (OpPreload None) "https://valid.example/img.png"
                  empty_world [LoadOk] _ _ eq_refl)).
Defined.

Lemma probe_warnings_witness :
  exists steps w',
    run (map (probe_event 0 0) [Timeout; LoadErr])
        (world_after (OpCheck (MkCallback 0) None) "https://missing.example/none.png"
           empty_world)
    = Some (steps, w')
    /\ length (warnings (observations steps)) = 2.
Proof.
  eexists _, _. split; [reflexivity|].
  exact (proj1 (probe_warnings (OpCheck (MkCallback 0) None)
                  "https://missing.example/none.png" empty_world
                  [Timeout; LoadErr] _ _ eq_refl)).
Defined.

Lemma preloadImage_reason_is_logged_witness :
  exists steps w',
    run (map (probe_event 0 0) [LoadErr])
        (world_of (preloadImage "https://missing.example/none.png" None empty_world))
    = Some (steps, w')
    /\ promises w' !! 0
       = Some (Rejected (MkError "Failed to load image: https://missing.example/none.png"))
    /\ hd_error (warnings (observations steps))
       = Some "Failed to load image: https://missing.example/none.png".
Proof.
  eexists _, _. split; [reflexivity|]. split; [reflexivity|].
  exact (proj1 (preloadImage_reason_is_logged
                  "https://missing.example/none.png" None empty_world [LoadErr] _ _
                  (MkError "Failed to load image: https://missing.example/none.png")
                  eq_refl eq_refl)).
Defined.
